(** * ZenFocus: the durable store, the task repository, the timer engine and
      the AI advisory client of [src/App.tsx], embedded in Rocq.

    The embedding follows the TypeScript source function by function.  The
    platform services the source calls ([JSON.parse], [localStorage],
    [fetch], [setTimeout], React's effect scheduling) are modelled next to
    the code that uses them, each with a note on what is kept. *)

From Stdlib Require Import ZArith NArith Ascii String Lia.
From stdpp Require Import base option list gmap.

Open Scope Z_scope.

(* ===================================================================== *)
(** * JavaScript strings *)
(* ===================================================================== *)

(** A JavaScript string is a sequence of UTF-16 code units.  A code unit is
    kept as its number; [js] turns an ASCII literal into such a string. *)
Abbreviation jsstring := (list N).

Definition js (s : string) : jsstring :=
  N_of_ascii <$> list_ascii_of_string s.

(** [jsq] is [js] for literals that contain double quotes: in its argument
    an apostrophe stands for one. *)
Definition jsq (s : string) : jsstring :=
  (λ c, if N.eqb c 39 then 34%N else c) <$> js s.

Definition is_char (a : ascii) (c : N) : bool := N.eqb c (N_of_ascii a).

(** The double quote and the backslash. *)
Definition is_quote (c : N) : bool := N.eqb c 34.
Definition is_backslash (c : N) : bool := N.eqb c 92.

Definition in_range (lo hi : ascii) (c : N) : bool :=
  N.leb (N_of_ascii lo) c && N.leb c (N_of_ascii hi).

(** Truthiness of a string: every string but the empty one. *)
Definition str_truthy (s : jsstring) : bool :=
  match s with [] => false | _ :: _ => true end.

(** [String.prototype.trim] removes WhiteSpace and LineTerminator code units
    from both ends (ECMA-262, 22.1.3.32): TAB, LF, VT, FF, CR, SP, NBSP,
    U+1680, U+2000..U+200A, LS, PS, U+202F, U+205F, U+3000 and the BOM. *)
Definition is_js_whitespace (c : N) : bool :=
  (N.leb 9 c && N.leb c 13) || N.eqb c 32 || N.eqb c 160 || N.eqb c 5760
  || (N.leb 8192 c && N.leb c 8202) || N.eqb c 8232 || N.eqb c 8233
  || N.eqb c 8239 || N.eqb c 8287 || N.eqb c 12288 || N.eqb c 65279.

Fixpoint trim_start (s : jsstring) : jsstring :=
  match s with
  | [] => []
  | c :: s' => if is_js_whitespace c then trim_start s' else s
  end.

Definition trim_end (s : jsstring) : jsstring :=
  reverse (trim_start (reverse s)).

Definition trim (s : jsstring) : jsstring := trim_end (trim_start s).

(** A text of white space only (the empty text included). *)
Definition whitespace_only (s : jsstring) : Prop :=
  Forall (λ c, is_js_whitespace c = true) s.

(** [strip_prefix p s] is the rest of [s] after [p] when [s] starts with [p]. *)
Fixpoint strip_prefix (p s : jsstring) : option jsstring :=
  match p, s with
  | [], _ => Some s
  | _ :: _, [] => None
  | a :: p', b :: s' => if N.eqb a b then strip_prefix p' s' else None
  end.

(** [s.replace(/pat/g, '')] for a literal, non-empty pattern: scanning from
    the left, every occurrence found is dropped and the scan resumes after
    it.  The scan is written with a skip counter so that it is structural. *)
Fixpoint remove_all_from (skip : nat) (pat s : jsstring) : jsstring :=
  match s with
  | [] => []
  | c :: s' =>
      match skip with
      | S k => remove_all_from k pat s'
      | O =>
          match strip_prefix pat s with
          | Some _ => remove_all_from (pred (length pat)) pat s'
          | None => c :: remove_all_from O pat s'
          end
      end
  end.

Definition remove_all (pat s : jsstring) : jsstring := remove_all_from O pat s.

(* ===================================================================== *)
(** * JSON values and [JSON.parse] *)
(* ===================================================================== *)

#[local] Set Warnings "-register-all".

(** The values [JSON.parse] can return.  A number literal is kept as the
    exact decimal [m * 10^e] it denotes; the binary64 double it is rounded
    to is read off that decimal where the code depends on it (see
    [rounds_to_zero]).  An object keeps its members in document order. *)
Inductive json : Type :=
| JNull
| JBool (b : bool)
| JNumber (m e : Z)
| JString (s : jsstring)
| JArray (items : list json)
| JObject (members : list (jsstring * json)).

Module Json.

Inductive token : Type :=
| TLBracket | TRBracket | TLBrace | TRBrace | TComma | TColon
| TScalar (v : json).

(** ** Lexer: one code unit at a time *)

Inductive nphase : Type :=
| NMinus | NZero | NInt | NDot | NFrac | NE | NESign | NExp.

Record numacc : Type := mkNum {
  n_neg : bool; n_mant : N; n_scale : N;
  n_eneg : bool; n_exp : N; n_phase : nphase }.

Inductive lstate : Type :=
| LStart
| LString (acc : jsstring)
| LEscape (acc : jsstring)
| LUnicode (acc : jsstring) (todo : nat) (v : N)
| LNumber (n : numacc)
| LWord (rest : jsstring) (v : json).

(** JSON white space is TAB, LF, CR and SP only (ECMA-404). *)
Definition is_ws (c : N) : bool :=
  N.eqb c 9 || N.eqb c 10 || N.eqb c 13 || N.eqb c 32.

Definition digit_of (c : N) : option N :=
  if in_range "0" "9" c then Some (c - 48)%N else None.

Definition hex_of (c : N) : option N :=
  if in_range "0" "9" c then Some (c - 48)%N
  else if in_range "a" "f" c then Some (c - 87)%N
  else if in_range "A" "F" c then Some (c - 55)%N
  else None.

Definition number_value (n : numacc) : json :=
  let m := Z.of_N (n_mant n) in
  let x := Z.of_N (n_exp n) in
  JNumber (if n_neg n then - m else m)
          ((if n_eneg n then - x else x) - Z.of_N (n_scale n)).

Definition num_start (neg : bool) (d : N) (ph : nphase) : numacc :=
  mkNum neg d 0 false 0 ph.

Definition lex_start (c : N) : option (lstate * list token) :=
  if is_ws c then Some (LStart, [])
  else if is_char "[" c then Some (LStart, [TLBracket])
  else if is_char "]" c then Some (LStart, [TRBracket])
  else if is_char "{" c then Some (LStart, [TLBrace])
  else if is_char "}" c then Some (LStart, [TRBrace])
  else if is_char "," c then Some (LStart, [TComma])
  else if is_char ":" c then Some (LStart, [TColon])
  else if is_quote c then Some (LString [], [])
  else if is_char "-" c then Some (LNumber (num_start true 0 NMinus), [])
  else if is_char "0" c then Some (LNumber (num_start false 0 NZero), [])
  else if in_range "1" "9" c then
    Some (LNumber (num_start false (c - 48) NInt), [])
  else if is_char "t" c then Some (LWord (js "rue") (JBool true), [])
  else if is_char "f" c then Some (LWord (js "alse") (JBool false), [])
  else if is_char "n" c then Some (LWord (js "ull") JNull, [])
  else None.

Definition push_digit (n : numacc) (d : N) (ph : nphase) : numacc :=
  match ph with
  | NExp => mkNum (n_neg n) (n_mant n) (n_scale n) (n_eneg n)
                  (n_exp n * 10 + d) NExp
  | NFrac => mkNum (n_neg n) (n_mant n * 10 + d) (n_scale n + 1)
                   (n_eneg n) (n_exp n) NFrac
  | _ => mkNum (n_neg n) (n_mant n * 10 + d) (n_scale n)
               (n_eneg n) (n_exp n) ph
  end.

Definition set_phase (n : numacc) (ph : nphase) : numacc :=
  mkNum (n_neg n) (n_mant n) (n_scale n) (n_eneg n) (n_exp n) ph.

Definition set_eneg (n : numacc) : numacc :=
  mkNum (n_neg n) (n_mant n) (n_scale n) true (n_exp n) NESign.

(** The literal is complete: emit it and read [c] as the start of the
    next token. *)
Definition num_finish (n : numacc) (c : N) : option (lstate * list token) :=
  match lex_start c with
  | Some (st, ts) => Some (st, TScalar (number_value n) :: ts)
  | None => None
  end.

Definition is_exp_mark (c : N) : bool := is_char "e" c || is_char "E" c.

Definition lex_number (n : numacc) (c : N) : option (lstate * list token) :=
  match n_phase n, digit_of c with
  | NMinus, Some d =>
      Some (LNumber (push_digit n d (if N.eqb d 0 then NZero else NInt)), [])
  | NMinus, None => None
  | NZero, _ =>
      if is_char "." c then Some (LNumber (set_phase n NDot), [])
      else if is_exp_mark c then Some (LNumber (set_phase n NE), [])
      else num_finish n c
  | NInt, Some d => Some (LNumber (push_digit n d NInt), [])
  | NInt, None =>
      if is_char "." c then Some (LNumber (set_phase n NDot), [])
      else if is_exp_mark c then Some (LNumber (set_phase n NE), [])
      else num_finish n c
  | NDot, Some d => Some (LNumber (push_digit n d NFrac), [])
  | NDot, None => None
  | NFrac, Some d => Some (LNumber (push_digit n d NFrac), [])
  | NFrac, None =>
      if is_exp_mark c then Some (LNumber (set_phase n NE), [])
      else num_finish n c
  | NE, Some d => Some (LNumber (push_digit n d NExp), [])
  | NE, None =>
      if is_char "+" c then Some (LNumber (set_phase n NESign), [])
      else if is_char "-" c then Some (LNumber (set_eneg n), [])
      else None
  | NESign, Some d => Some (LNumber (push_digit n d NExp), [])
  | NESign, None => None
  | NExp, Some d => Some (LNumber (push_digit n d NExp), [])
  | NExp, None => num_finish n c
  end.

Definition lex_escape (acc : jsstring) (c : N) : option lstate :=
  if is_quote c || is_backslash c || is_char "/" c
  then Some (LString (c :: acc))
  else if is_char "b" c then Some (LString (8%N :: acc))
  else if is_char "f" c then Some (LString (12%N :: acc))
  else if is_char "n" c then Some (LString (10%N :: acc))
  else if is_char "r" c then Some (LString (13%N :: acc))
  else if is_char "t" c then Some (LString (9%N :: acc))
  else if is_char "u" c then Some (LUnicode acc 4 0)
  else None.

Definition lex_step (st : lstate) (c : N) : option (lstate * list token) :=
  match st with
  | LStart => lex_start c
  | LString acc =>
      if is_quote c then Some (LStart, [TScalar (JString (reverse acc))])
      else if is_backslash c then Some (LEscape acc, [])
      else if N.ltb c 32 then None
      else Some (LString (c :: acc), [])
  | LEscape acc => (λ st', (st', [])) <$> lex_escape acc c
  | LUnicode acc todo v =>
      match hex_of c, todo with
      | Some d, S O => Some (LString ((v * 16 + d)%N :: acc), [])
      | Some d, S k => Some (LUnicode acc k (v * 16 + d), [])
      | _, _ => None
      end
  | LNumber n => lex_number n c
  | LWord rest v =>
      match rest with
      | r :: [] => if N.eqb c r then Some (LStart, [TScalar v]) else None
      | r :: rest' => if N.eqb c r then Some (LWord rest' v, []) else None
      | [] => None
      end
  end.

Definition lex_end (st : lstate) : option (list token) :=
  match st with
  | LStart => Some []
  | LNumber n =>
      match n_phase n with
      | NZero | NInt | NFrac | NExp => Some [TScalar (number_value n)]
      | _ => None
      end
  | _ => None
  end.

Fixpoint lex_from (st : lstate) (s : jsstring) : option (list token) :=
  match s with
  | [] => lex_end st
  | c :: s' =>
      match lex_step st c with
      | Some (st', ts) => (λ rest, ts ++ rest) <$> lex_from st' s'
      | None => None
      end
  end.

(** ** Parser: a pushdown automaton over the tokens *)

Inductive frame : Type :=
| FArr (done : list json)
| FObj (done : list (jsstring * json)) (key : jsstring).

Inductive expect : Type :=
| EValue | EValueOrClose | EKeyOrClose | EKey | EColon | ECommaOrClose
| EEnd (v : json).

Definition pstate : Type := (list frame * expect)%type.

(** A value is complete: it is the result, or goes into the open
    container. *)
Definition complete (v : json) (stack : list frame) : pstate :=
  match stack with
  | [] => ([], EEnd v)
  | FArr done :: st => (FArr (v :: done) :: st, ECommaOrClose)
  | FObj done key :: st => (FObj ((key, v) :: done) [] :: st, ECommaOrClose)
  end.

Definition parse_step (ps : pstate) (t : token) : option pstate :=
  let '(stack, ex) := ps in
  match ex, t with
  | (EValue | EValueOrClose), TScalar v => Some (complete v stack)
  | (EValue | EValueOrClose), TLBracket => Some (FArr [] :: stack, EValueOrClose)
  | (EValue | EValueOrClose), TLBrace => Some (FObj [] [] :: stack, EKeyOrClose)
  | (EValueOrClose | ECommaOrClose), TRBracket =>
      match stack with
      | FArr done :: st => Some (complete (JArray (reverse done)) st)
      | _ => None
      end
  | (EKeyOrClose | ECommaOrClose), TRBrace =>
      match stack with
      | FObj done _ :: st => Some (complete (JObject (reverse done)) st)
      | _ => None
      end
  | (EKeyOrClose | EKey), TScalar (JString k) =>
      match stack with
      | FObj done _ :: st => Some (FObj done k :: st, EColon)
      | _ => None
      end
  | EColon, TColon => Some (stack, EValue)
  | ECommaOrClose, TComma =>
      match stack with
      | FArr _ :: _ => Some (stack, EValue)
      | FObj _ _ :: _ => Some (stack, EKey)
      | [] => None
      end
  | _, _ => None
  end.

Fixpoint parse_from (ps : pstate) (ts : list token) : option json :=
  match ts with
  | [] => match ps with (_, EEnd v) => Some v | _ => None end
  | t :: ts' =>
      match parse_step ps t with
      | Some ps' => parse_from ps' ts'
      | None => None
      end
  end.

(** [JSON.parse text]: [None] stands for the [SyntaxError] it throws. *)
Definition parse (text : jsstring) : option json :=
  lex_from LStart text ≫= parse_from ([], EValue).

End Json.

(* ===================================================================== *)
(** * Exceptions, console and dialog output *)
(* ===================================================================== *)

Inductive exn : Type :=
| SyntaxError          (* JSON.parse, Response.json on a malformed text *)
| TypeError            (* a property of null, a call of a non-function *)
| SecurityError        (* storage access denied *)
| QuotaExceededError   (* storage full *)
| NetworkError         (* fetch rejected *)
| Error (msg : string).

Inductive output : Type :=
| ConsoleError (label : option string) (e : exn)
| Alert (msg : string).

(** How a statement list ends: normally with a value, or by a throw. *)
Inductive completion (A : Type) : Type :=
| Returns (a : A)
| Throws (e : exn).
Arguments Returns {A} a.
Arguments Throws {A} e.

(** A computation over a state [S]: its completion, the state it leaves
    (updates made before a throw stay), and the output it produced. *)
Definition M (S A : Type) : Type := S → completion A * S * list output.

Section Monad.
Context {S : Type}.

Definition ret {A} (a : A) : M S A := λ s, (Returns a, s, []).

Definition bind {A B} (m : M S A) (k : A → M S B) : M S B :=
  λ s, match m s with
       | (Returns a, s1, o1) =>
           let '(r, s2, o2) := k a s1 in (r, s2, o1 ++ o2)
       | (Throws e, s1, o1) => (Throws e, s1, o1)
       end.

Definition throw {A} (e : exn) : M S A := λ s, (Throws e, s, []).

(** [try { body } catch (error) { handler error }] *)
Definition try_catch {A} (body : M S A) (handler : exn → M S A) : M S A :=
  λ s, match body s with
       | (Returns a, s1, o1) => (Returns a, s1, o1)
       | (Throws e, s1, o1) =>
           let '(r, s2, o2) := handler e s1 in (r, s2, o1 ++ o2)
       end.

Definition modify (f : S → S) : M S unit := λ s, (Returns tt, f s, []).

Definition console_error (label : option string) (e : exn) : M S unit :=
  λ s, (Returns tt, s, [ConsoleError label e]).

Definition alert (msg : string) : M S unit :=
  λ s, (Returns tt, s, [Alert msg]).

Definition JSON_parse (text : jsstring) : M S json :=
  match Json.parse text with
  | Some v => ret v
  | None => throw SyntaxError
  end.
End Monad.

Declare Scope js_scope.
Delimit Scope js_scope with js.
Notation "x <- m ; k" := (bind m (λ x, k))
  (at level 20, m at level 100, k at level 200, only parsing) : js_scope.
Notation "m ;; k" := (bind m (λ _, k))
  (at level 100, k at level 200, only parsing, right associativity) : js_scope.
Open Scope js_scope.

(* ===================================================================== *)
(** * Durable store: [useLocalStorage] (App.tsx:35-56) *)
(* ===================================================================== *)

Module Store.

(** [window.localStorage]: a string-to-string map.  A write that would
    take the stored code units past [quota] throws; when access is
    [blocked] (storage disabled for the page) every call throws. *)
Record Storage : Type := mkStorage {
  items : gmap jsstring jsstring;
  quota : N;
  blocked : bool }.

Definition used (m : gmap jsstring jsstring) : N :=
  map_fold (λ k v n, N.of_nat (length k) + N.of_nat (length v) + n)%N
           0%N m.

Definition getItem (key : jsstring) : M Storage (option jsstring) :=
  λ st, if blocked st then (Throws SecurityError, st, [])
        else (Returns (items st !! key), st, []).

Definition setItem (key value : jsstring) : M Storage unit :=
  λ st, if blocked st then (Throws SecurityError, st, [])
        else
          let items' := <[key := value]> (items st) in
          if (used items' <=? quota st)%N
          then (Returns tt, mkStorage items' (quota st) (blocked st), [])
          else (Throws QuotaExceededError, st, []).

(** The initialiser of the hook's state (App.tsx:36-44):
    [item ? JSON.parse(item) : initialValue] inside try/catch.  [item] is
    falsy when [getItem] gave null and when it gave the empty string. *)
Definition load (key : jsstring) (initialValue : json) : M Storage json :=
  try_catch
    (item <- getItem key;
     match item with
     | Some raw => if str_truthy raw then JSON_parse raw else ret initialValue
     | None => ret initialValue
     end)
    (λ error, console_error None error ;; ret initialValue).

(** The hook after its first render: the React state and the storage. *)
Record Hook : Type := mkHook {
  storedValue : json;
  storage : Storage }.

Definition setStoredValue (value : json) : M Hook unit :=
  modify (λ h, mkHook value (storage h)).

Definition on_storage {A} (m : M Storage A) : M Hook A :=
  λ h, let '(r, st, out) := m (storage h) in
       (r, mkHook (storedValue h) st, out).

Section SetValue.
(** [JSON.stringify], the platform's serialiser, on the tree-shaped
    values a hook holds. *)
Variable stringify : json → jsstring.

(** [setValue] (App.tsx:46-53). *)
Definition setValue (key : jsstring) (value : json) : M Hook unit :=
  try_catch
    (setStoredValue value ;;
     on_storage (setItem key (stringify value)))
    (λ error, console_error None error).
End SetValue.

End Store.


(* ===================================================================== *)
(** * Task repository (App.tsx:18-30, 238-267) *)
(* ===================================================================== *)

Section Tasks.

(** Identifiers are JavaScript numbers: [Date.now()] for a task and
    [Date.now() + Math.random()] for a subtask, neither of them NaN.  The
    code only compares them with [===], so they are kept abstract, with
    [===] as the decidable equality; the clock and the random source are
    inputs of the handlers. *)
Context {number : Type} `{EqDecision number}.

(** [text] is declared a string; the breakdown stores in it whatever the
    elements of the parsed array are. *)
Record SubTask : Type := mkSubTask {
  sub_id : number;
  sub_text : json;
  sub_completed : bool }.

(** [subtasks?] and [isExpanded?] are optional: [None] is undefined. *)
Record Task : Type := mkTask {
  task_id : number;
  task_text : jsstring;
  task_completed : bool;
  task_subtasks : option (list SubTask);
  task_isExpanded : option bool }.

(** [addTask] (App.tsx:238-243): the collection and the input field after
    the submit handler, [now] being what [Date.now()] returns. *)
Definition addTask (now : number) (newTask : jsstring) (tasks : list Task)
  : list Task * jsstring :=
  if str_truthy (trim newTask)
  then (tasks ++ [mkTask now newTask false (Some []) (Some false)], [])
  else (tasks, newTask).

(** [toggleTask] (App.tsx:245-247): the collection passed to [setTasks]. *)
Definition toggleTask (id : number) (tasks : list Task) : list Task :=
  (λ t, if decide (task_id t = id)
        then mkTask (task_id t) (task_text t) (negb (task_completed t))
                    (task_subtasks t) (task_isExpanded t)
        else t) <$> tasks.

Definition flipSubtask (subtaskId : number) (st : SubTask) : SubTask :=
  if decide (sub_id st = subtaskId)
  then mkSubTask (sub_id st) (sub_text st) (negb (sub_completed st))
  else st.

(** [toggleSubtask] (App.tsx:249-257); [t.subtasks?.map] keeps undefined. *)
Definition toggleSubtask (taskId subtaskId : number) (tasks : list Task)
  : list Task :=
  (λ t, if decide (task_id t ≠ taskId) then t
        else mkTask (task_id t) (task_text t) (task_completed t)
                    (fmap (M := list) (flipSubtask subtaskId) <$> task_subtasks t)
                    (task_isExpanded t)) <$> tasks.

(** [deleteTask] (App.tsx:259-261). *)
Definition deleteTask (id : number) (tasks : list Task) : list Task :=
  filter (λ t, task_id t ≠ id) tasks.

(** [toggleExpand] (App.tsx:263-265); [!undefined] is true. *)
Definition toggleExpand (id : number) (tasks : list Task) : list Task :=
  (λ t, if decide (task_id t = id)
        then mkTask (task_id t) (task_text t) (task_completed t)
                    (task_subtasks t)
                    (Some (negb (default false (task_isExpanded t))))
        else t) <$> tasks.

(** [tasks.find(t => !t.completed)] (App.tsx:169, 267). *)
Definition activeTask (tasks : list Task) : option Task :=
  List.find (λ t, negb (task_completed t)) tasks.

(** The subtasks built from the parsed steps (App.tsx:147-151); [stamp i]
    is the value of [Date.now() + Math.random()] in the i-th callback. *)
Definition newSubtasks (stamp : nat → number) (steps : list json)
  : list SubTask :=
  imap (λ i step, mkSubTask (stamp i) step false) steps.

(** The collection passed to [setTasks] after a breakdown (App.tsx:153-157):
    [[...(t.subtasks || []), ...newSubtasks]] and [isExpanded: true]. *)
Definition attachSubtasks (taskId : number) (new : list SubTask)
    (tasks : list Task) : list Task :=
  (λ t, if decide (task_id t = taskId)
        then mkTask (task_id t) (task_text t) (task_completed t)
                    (Some (default [] (task_subtasks t) ++ new))
                    (Some true)
        else t) <$> tasks.

(** ** AI advisory client (App.tsx:105-175) *)

(** What [fetch] settles to: a rejection, or a response with its [ok] flag
    and body text. *)
Inductive fetch_outcome : Type :=
| Rejected
| Responded (ok : bool) (body : jsstring).

(** Own property [name] of an object built by [JSON.parse]: of members
    with the same name the last one stays. *)
Fixpoint own_property (name : jsstring) (ms : list (jsstring * json))
  : option json :=
  match ms with
  | [] => None
  | (k, v) :: ms' =>
      match own_property name ms' with
      | Some v' => Some v'
      | None => if decide (k = name) then Some v else None
      end
  end.

(** [v.name] for a [v] other than null, [None] being undefined.  The names
    read here (candidates, content, parts, text) are defined by no built-in
    prototype, so only an object can have them. *)
Definition member (name : jsstring) (v : json) : option json :=
  match v with
  | JObject ms => own_property name ms
  | _ => None
  end.

(** [v[0]] for a [v] other than null. *)
Definition first (v : json) : option json :=
  match v with
  | JArray items => head items
  | JObject ms => own_property (js "0") ms
  | JString (c :: _) => Some (JString [c])
  | _ => None
  end.

(** [e?.p]: undefined when [e] is undefined or null. *)
Definition opt (access : json → option json) (e : option json)
  : option json :=
  match e with
  | None | Some JNull => None
  | Some v => access v
  end.

(** The number [JSON.parse] gives for the decimal [m * 10^e] is that
    decimal rounded to the nearest binary64 double, ties to even.  It is 0
    exactly when the decimal is 0 or its magnitude is at most [2^-1075],
    half of the least positive double: there the rounding underflows, as it
    does for [1e-400].  (ECMA-262 lets an engine cut a literal of more than
    20 significant digits at the 20th before it rounds; V8, SpiderMonkey and
    JavaScriptCore round the literal as it stands, which is what is kept
    here.) *)
Definition rounds_to_zero (m e : Z) : bool :=
  (m =? 0) || ((e <? 0) && (Z.abs m * 2 ^ 1075 <=? 10 ^ (- e))).

#[global] Arguments rounds_to_zero : simpl never.

(** Truthiness: null, false, the number 0 (and -0) and the empty string are
    falsy; [JSON.parse] gives no NaN. *)
Definition truthy (v : json) : bool :=
  match v with
  | JNull => false
  | JBool b => b
  | JNumber m e => negb (rounds_to_zero m e)
  | JString s => str_truthy s
  | JArray _ | JObject _ => true
  end.

(** [data.candidates?.[0]?.content?.parts?.[0]?.text], before [|| '']. *)
Definition text_part (data : json) : option json :=
  opt (member (js "text"))
    (opt first
      (opt (member (js "parts"))
        (opt (member (js "content"))
          (opt first (member (js "candidates") data))))).

Definition or_empty (v : option json) : json :=
  match v with
  | Some x => if truthy x then x else JString []
  | None => JString []
  end.

(** The state of the component the handlers work on (App.tsx:79-85), with
    the [window.localStorage] behind [useLocalStorage]. *)
Record App : Type := mkApp {
  tasks : list Task;
  loadingTaskId : option number;
  coachTip : option json;
  isCoachLoading : bool;
  localStorage : Store.Storage }.

Definition setLoadingTaskId (v : option number) : M App unit :=
  modify (λ a, mkApp (tasks a) v (coachTip a) (isCoachLoading a)
                     (localStorage a)).
Definition setCoachTip (v : option json) : M App unit :=
  modify (λ a, mkApp (tasks a) (loadingTaskId a) v (isCoachLoading a)
                     (localStorage a)).
Definition setIsCoachLoading (v : bool) : M App unit :=
  modify (λ a, mkApp (tasks a) (loadingTaskId a) (coachTip a) v
                     (localStorage a)).

(** A call on [window.localStorage] made from the component. *)
Definition on_localStorage {A} (m : M Store.Storage A) : M App A :=
  λ a, let '(r, st, out) := m (localStorage a) in
       (r, mkApp (tasks a) (loadingTaskId a) (coachTip a) (isCoachLoading a)
                 st, out).

(** The state the breakdown handler leaves when it is done: the given
    tasks, no task marked as loading, the storage as it was. *)
Definition idle (a : App) (ts : list Task) : App :=
  mkApp ts None (coachTip a) (isCoachLoading a) (localStorage a).

(** The same with the storage [st]. *)
Definition idle_with (a : App) (ts : list Task) (st : Store.Storage) : App :=
  mkApp ts None (coachTip a) (isCoachLoading a) st.

(** What the catch block of the client prints and shows (App.tsx:126-127),
    and what the catch block of the breakdown does (App.tsx:160-161). *)
Definition ai_error (e : exn) : list output :=
  [ConsoleError (Some "Gemini API Error:"%string) e;
   Alert "AI Error: Check console for details (likely API quota or key issue)."].

Definition breakdown_error (e : exn) : list output :=
  [ConsoleError (Some "Failed to parse AI response"%string) e;
   Alert "Couldn't break down this task automatically. Try again!"].

Section Client.

(** The remote service: what the request carrying [prompt] settles to. *)
Variable fetch : jsstring → fetch_outcome.

(** [JSON.stringify], the platform's serialiser, on a task collection. *)
Variable stringify : list Task → jsstring.

(** [setTasks] is the setter [useLocalStorage('zenfocus-tasks', [])]
    returns (App.tsx:79), that is [setValue] (App.tsx:46-53) for that key:
    the state is updated, then the serialised collection is written to the
    storage; a write that throws is caught and logged. *)
Definition setTasks (ts : list Task) : M App unit :=
  try_catch
    (modify (λ a, mkApp ts (loadingTaskId a) (coachTip a) (isCoachLoading a)
                        (localStorage a)) ;;
     on_localStorage (Store.setItem (js "zenfocus-tasks") (stringify ts)))
    (λ error, console_error None error).

(** [callGemini] (App.tsx:105-130); [None] is the null it returns from the
    catch block. *)
Definition callGemini {S : Type} (prompt : jsstring) : M S (option json) :=
  try_catch
    (match fetch prompt with
     | Rejected => throw NetworkError
     | Responded ok body =>
         if negb ok then throw (Error "AI Response failed")
         else
           data <- JSON_parse body;
           match data with
           | JNull => throw TypeError
           | _ => ret (Some (or_empty (text_part data)))
           end
     end)
    (λ error,
       console_error (Some "Gemini API Error:"%string) error ;;
       alert "AI Error: Check console for details (likely API quota or key issue)." ;;
       ret None).

Definition breakdown_prompt (taskText : jsstring) : jsstring :=
  jsq "Act as a productivity expert. Break down the task '" ++ taskText ++
  jsq "' into 3 to 5 small, actionable, concrete sub-steps. Return ONLY a raw JSON array of strings (e.g. ['Step 1', 'Step 2']). Do not include markdown formatting or 'json' tags.".

(** [s.replace(/```json/g, '').replace(/```/g, '').trim()]. *)
Definition strip_fences (s : jsstring) : jsstring :=
  trim (remove_all (js "```") (remove_all (js "```json") s)).

(** [cleanJson] (App.tsx:143); a value without a [replace] method makes the
    call throw. *)
Definition cleanJson (result : json) : M App jsstring :=
  match result with
  | JString s => ret (strip_fences s)
  | _ => throw TypeError
  end.

(** [handleSmartBreakdown] (App.tsx:133-165).  [captured] is the [tasks] of
    the render whose handler was invoked: the closure keeps it across the
    await. *)
Definition handleSmartBreakdown (captured : list Task) (stamp : nat → number)
    (taskId : number) (taskText : jsstring) : M App unit :=
  setLoadingTaskId (Some taskId) ;;
  result <- callGemini (breakdown_prompt taskText);
  match result with
  | Some r =>
      if truthy r then
        try_catch
          (text <- cleanJson r;
           steps <- JSON_parse text;
           match steps with
           | JArray items =>
               setTasks (attachSubtasks taskId (newSubtasks stamp items) captured)
           | _ => ret tt
           end)
          (λ e,
             console_error (Some "Failed to parse AI response"%string) e ;;
             alert "Couldn't break down this task automatically. Try again!")
      else ret tt
  | None => ret tt
  end ;;
  setLoadingTaskId None.

Definition coach_prompt (activeTaskText : jsstring) : jsstring :=
  jsq "I am using a focus timer app. My current main task is: '" ++ activeTaskText ++
  jsq "'. Give me one single, short, powerful sentence of advice (Stoic, productivity, or motivational) to help me start or focus on this specific task. Keep it under 20 words.".

(** [tasks.find(t => !t.completed)?.text || "general focus"]. *)
Definition activeTaskText (captured : list Task) : jsstring :=
  match activeTask captured with
  | Some t => if str_truthy (task_text t) then task_text t else js "general focus"
  | None => js "general focus"
  end.

(** [getZenCoachTip] (App.tsx:167-175). *)
Definition getZenCoachTip (captured : list Task) : M App unit :=
  setIsCoachLoading true ;;
  tip <- callGemini (coach_prompt (activeTaskText captured));
  match tip with
  | Some t => if truthy t then setCoachTip (Some t) else ret tt
  | None => ret tt
  end ;;
  setIsCoachLoading false.

(** The call with [prompt] completes with [r] after producing [out],
    whatever the state it runs in. *)
Definition call_returns (prompt : jsstring) (r : option json)
    (out : list output) : Prop :=
  ∀ (S : Type) (s : S), callGemini prompt s = (Returns r, s, out).

End Client.

(** ** The identifiers in a collection, and sequences of operations *)

Definition task_ids (ts : list Task) : list number := task_id <$> ts.

Definition subtask_ids (t : Task) : list number :=
  sub_id <$> default [] (task_subtasks t).

(** Task ids unique across the collection, subtask ids unique within their
    parent task. *)
Definition ids_unique (ts : list Task) : Prop :=
  NoDup (task_ids ts) ∧ Forall (λ t, NoDup (subtask_ids t)) ts.

(** The operations of the repository with what they take from the
    environment: the clock reading of an add, the identifier drawn for each
    step of a breakdown. *)
Inductive operation : Type :=
| Add (now : number) (text : jsstring)
| ToggleCompleted (id : number)
| ToggleSubtaskCompleted (taskId subtaskId : number)
| Remove (id : number)
| ToggleExpanded (id : number)
| AttachSubtasks (taskId : number) (stamp : nat → number) (steps : list json).

Definition apply_operation (o : operation) (ts : list Task) : list Task :=
  match o with
  | Add now text => (addTask now text ts).1
  | ToggleCompleted id => toggleTask id ts
  | ToggleSubtaskCompleted taskId subtaskId => toggleSubtask taskId subtaskId ts
  | Remove id => deleteTask id ts
  | ToggleExpanded id => toggleExpand id ts
  | AttachSubtasks taskId stamp steps =>
      attachSubtasks taskId (newSubtasks stamp steps) ts
  end.

Fixpoint run_operations (os : list operation) (ts : list Task) : list Task :=
  match os with
  | [] => ts
  | o :: os' => run_operations os' (apply_operation o ts)
  end.

(** What the environment must supply for an operation to keep identifiers
    unique: a clock reading no task carries yet; identifiers for the new
    subtasks that differ from each other and from those of the task they
    are attached to. *)
Definition operation_fresh (o : operation) (ts : list Task) : Prop :=
  match o with
  | Add now text => str_truthy (trim text) = true → now ∉ task_ids ts
  | AttachSubtasks taskId stamp steps =>
      let new := sub_id <$> newSubtasks stamp steps in
      Forall (λ t, task_id t = taskId →
                   NoDup new ∧ ∀ x, x ∈ subtask_ids t → x ∉ new) ts
  | _ => True
  end.

Fixpoint operations_fresh (os : list operation) (ts : list Task) : Prop :=
  match os with
  | [] => True
  | o :: os' => operation_fresh o ts ∧ operations_fresh os' (apply_operation o ts)
  end.

(** ** Response shapes *)

(** The parsed response body lacks the candidates, the content or the parts
    field on the path the client reads. *)
Definition lacks_fields (data : json) : Prop :=
  member (js "candidates") data = None
  ∨ opt (member (js "content")) (opt first (member (js "candidates") data)) = None
  ∨ opt (member (js "parts"))
      (opt (member (js "content")) (opt first (member (js "candidates") data)))
    = None.

End Tasks.

Arguments SubTask : clear implicits.
Arguments Task : clear implicits.
Arguments App : clear implicits.
Arguments operation : clear implicits.

(** ** What the page shows of the tasks (App.tsx:267, 384, 489-498) *)

Section TaskViews.
Context {number : Type} `{EqDecision number}.

(** The counter in the header (App.tsx:384):
    [tasks.filter(t => t.completed).length]. *)
Definition doneCount (tasks : list (Task number)) : nat :=
  length (filter (λ t, task_completed t = true) tasks).

(** The "Next Step" line of the overlay (App.tsx:494-497): the text of the
    first incomplete subtask of the active task, when there is one. *)
Definition nextStep (tasks : list (Task number)) : option json :=
  t ← activeTask tasks;
  subs ← task_subtasks t;
  sub_text <$> List.find (λ st, negb (sub_completed st)) subs.

(** A completed task. *)
Definition finished (t : Task number) : Prop := task_completed t = true.

End TaskViews.

(* ===================================================================== *)
(** * Timer engine (App.tsx:88-102, 178-190, 224-235) *)
(* ===================================================================== *)

Module Timer.

Inductive Mode : Type := focus | short | long.

(** [MODES[mode].time] (App.tsx:98-102). *)
Definition MODES_time (m : Mode) : Z :=
  match m with
  | focus => 25 * 60
  | short => 5 * 60
  | long => 15 * 60
  end.

(** The component's timer state, the ref, and the part of the browser the
    effect talks to: the one-shot timeouts still pending, the next handle
    [setTimeout] returns (handles are positive), and how many times
    [playNotification] has been called. *)
Record State : Type := mkState {
  timerMode : Mode;
  timeLeft : Z;
  isActive : bool;
  soundEnabled : bool;
  timerRef : option nat;
  pending : list nat;
  nextHandle : nat;
  chimes : nat }.

(** [timerRef.current = window.setTimeout(..., 1000)]. *)
Definition setTimeout (s : State) : State :=
  let h := nextHandle s in
  mkState (timerMode s) (timeLeft s) (isActive s) (soundEnabled s)
          (Some h) (h :: pending s) (S h) (chimes s).

Definition clearTimeout (h : nat) (s : State) : State :=
  mkState (timerMode s) (timeLeft s) (isActive s) (soundEnabled s)
          (timerRef s) (filter (λ h', h' ≠ h) (pending s)) (nextHandle s)
          (chimes s).

(** [setIsActive(false); if (soundEnabled) playNotification();]. *)
Definition expire (s : State) : State :=
  mkState (timerMode s) (timeLeft s) false (soundEnabled s)
          (timerRef s) (pending s) (nextHandle s)
          (if soundEnabled s then S (chimes s) else chimes s).

(** The body of the effect (App.tsx:179-186). *)
Definition effect (s : State) : State :=
  if isActive s && (0 <? timeLeft s) then setTimeout s
  else if timeLeft s =? 0 then expire s
  else s.

(** Its clean-up (App.tsx:187-189): [if (timerRef.current) clearTimeout(...)];
    null and 0 are falsy. *)
Definition cleanup (s : State) : State :=
  match timerRef s with
  | Some h => if (h =? 0)%nat then s else clearTimeout h s
  | None => s
  end.

(** The dependency list [[isActive, timeLeft]] (App.tsx:190). *)
Definition deps (s : State) : bool * Z := (isActive s, timeLeft s).

(** One render after a state update: when the dependencies differ from those
    of the last run of the effect, React runs the clean-up of that run and
    then the effect. *)
Definition rerender (last : bool * Z) (s : State) : State :=
  if decide (deps s = last) then s else effect (cleanup s).

(** The renders that follow an update, [last] being the dependencies of the
    last run of the effect.  The effect itself may set [isActive], which
    asks for one more render; [commit_settled] shows that no third one
    changes anything. *)
Definition commit (last : bool * Z) (s : State) : State :=
  rerender (deps s) (rerender last s).

(** The state updates of the handlers and of the timeout callback. *)
Inductive event : Type :=
| Timeout (h : nat)        (* the browser runs the callback of handle [h] *)
| SwitchMode (m : Mode)
| ToggleTimer
| ResetTimer
| ToggleSound.

(** [setTimeLeft((prev) => prev - 1)], run by the browser for a pending
    handle, which is then spent. *)
Definition timeout_fires (h : nat) (s : State) : State :=
  if bool_decide (h ∈ pending s)
  then mkState (timerMode s) (timeLeft s - 1) (isActive s) (soundEnabled s)
               (timerRef s) (filter (λ h', h' ≠ h) (pending s))
               (nextHandle s) (chimes s)
  else s.

(** [switchMode] (App.tsx:224-228). *)
Definition switchMode (m : Mode) (s : State) : State :=
  mkState m (MODES_time m) false (soundEnabled s)
          (timerRef s) (pending s) (nextHandle s) (chimes s).

(** [toggleTimer] (App.tsx:230). *)
Definition toggleTimer (s : State) : State :=
  mkState (timerMode s) (timeLeft s) (negb (isActive s)) (soundEnabled s)
          (timerRef s) (pending s) (nextHandle s) (chimes s).

(** [resetTimer] (App.tsx:232-235). *)
Definition resetTimer (s : State) : State :=
  mkState (timerMode s) (MODES_time (timerMode s)) false (soundEnabled s)
          (timerRef s) (pending s) (nextHandle s) (chimes s).

(** [setSoundEnabled(!soundEnabled)] (App.tsx:297). *)
Definition toggleSound (s : State) : State :=
  mkState (timerMode s) (timeLeft s) (isActive s) (negb (soundEnabled s))
          (timerRef s) (pending s) (nextHandle s) (chimes s).

Definition update (e : event) (s : State) : State :=
  match e with
  | Timeout h => timeout_fires h s
  | SwitchMode m => switchMode m s
  | ToggleTimer => toggleTimer s
  | ResetTimer => resetTimer s
  | ToggleSound => toggleSound s
  end.

(** An event: its state update, then the renders it causes.  The renders
    and the effects of an update are taken to complete before the browser
    delivers the next event. *)
Definition handle (e : event) (s : State) : State :=
  commit (deps s) (update e s).

(** The first render (App.tsx:88-91, 95) and the effect run on mount. *)
Definition initial (sound : bool) : State :=
  effect (mkState focus (25 * 60) false sound None [] 1 0).

Definition run (es : list event) (s : State) : State :=
  foldl (λ s e, handle e s) s es.

Definition reachable (s : State) : Prop :=
  ∃ sound es, s = run es (initial sound).

(** One elapsed second: the browser fires the pending timeout, if any. *)
Definition tick (s : State) : State :=
  match pending s with
  | h :: _ => handle (Timeout h) s
  | [] => s
  end.

Fixpoint ticks (n : nat) (s : State) : State :=
  match n with
  | O => s
  | S n' => ticks n' (tick s)
  end.

(** ** Notions used to state the engine's invariant *)

(** What holds between two events: the remaining time is not negative; a
    running timer has time left and exactly one timeout pending, the one
    [timerRef] holds; a stopped timer has none pending. *)
Definition inv (s : State) : Prop :=
  0 ≤ timeLeft s
  ∧ (if isActive s
     then 0 < timeLeft s
          ∧ ∃ h, h ≠ 0%nat ∧ timerRef s = Some h ∧ pending s = [h]
     else pending s = [])
  ∧ (0 < nextHandle s)%nat.

(** At most the timeout whose handle [timerRef] holds is pending. *)
Definition tidy (s : State) : Prop :=
  pending s = [] ∨ ∃ h, h ≠ 0%nat ∧ timerRef s = Some h ∧ pending s = [h].

(** The state with no timeout pending. *)
Definition quiet (s : State) : State :=
  mkState (timerMode s) (timeLeft s) (isActive s) (soundEnabled s)
          (timerRef s) [] (nextHandle s) (chimes s).

End Timer.

(* ===================================================================== *)
(** * Time display (App.tsx:192-202) *)
(* ===================================================================== *)

Module Display.

(** The decimal digits of a natural number, as code units. *)
Fixpoint digits (u : Decimal.uint) : jsstring :=
  match u with
  | Decimal.Nil => []
  | Decimal.D0 u' => 48%N :: digits u'
  | Decimal.D1 u' => 49%N :: digits u'
  | Decimal.D2 u' => 50%N :: digits u'
  | Decimal.D3 u' => 51%N :: digits u'
  | Decimal.D4 u' => 52%N :: digits u'
  | Decimal.D5 u' => 53%N :: digits u'
  | Decimal.D6 u' => 54%N :: digits u'
  | Decimal.D7 u' => 55%N :: digits u'
  | Decimal.D8 u' => 56%N :: digits u'
  | Decimal.D9 u' => 57%N :: digits u'
  end.

(** [n.toString()] for an integer [n]: its decimal digits, after a minus
    sign when it is negative. *)
Definition toString (n : Z) : jsstring :=
  match Z.to_int n with
  | Decimal.Pos u => digits u
  | Decimal.Neg u => 45%N :: digits u
  end.

(** [s.padStart(2, '0')]. *)
Definition padStart2 (s : jsstring) : jsstring :=
  replicate (2 - length s) 48%N ++ s.

(** [formatTime] (App.tsx:198-202) on a whole number of seconds:
    [Math.floor(seconds / 60)] rounds down, [seconds % 60] has the sign of
    [seconds]. *)
Definition formatTime (seconds : Z) : jsstring :=
  let mins := seconds / 60 in
  let secs := Z.rem seconds 60 in
  padStart2 (toString mins) ++ [58%N] ++ padStart2 (toString secs).

(** The document title the effect sets (App.tsx:192-195). *)
Definition documentTitle (s : Timer.State) : jsstring :=
  formatTime (Timer.timeLeft s) ++ js " - ZenFocus".

(** The code unit of the decimal digit [d]. *)
Definition digit (d : Z) : N := Z.to_N (48 + d).

End Display.

(* ===================================================================== *)
(** * Sample data for the examples *)
(* ===================================================================== *)

(** A small session, with [Date.now()] readings as identifiers. *)
Module Sample.

Definition report : Task Z :=
  mkTask 1700000000000 (js "Write report") false (Some []) (Some false).

Definition outline : SubTask Z :=
  mkSubTask 1700000000500 (JString (js "Write outline")) false.

Definition planned : Task Z :=
  mkTask 1700000000000 (js "Write report") false (Some [outline]) (Some true).

(** An empty storage with the usual quota, one that is full, and one the
    page may not use. *)
Definition empty_storage : Store.Storage := Store.mkStorage ∅ 5000000 false.
Definition full_storage : Store.Storage :=
  Store.mkStorage {[ js "zenfocus-sound" := js "true" ]} 18 false.

Definition app : App Z := mkApp [report] None None false empty_storage.

(** A stand-in for [JSON.stringify] on the sample collections: the ids and
    texts of the tasks and the texts of their subtasks that are strings,
    between the brackets and braces of the real text.  The handlers only
    write the serialised text, so the examples depend on it through what is
    stored and through its length. *)
Definition stringify (ts : list (Task Z)) : jsstring :=
  js "[" ++
  mjoin ((λ t, js "{" ++ Display.toString (task_id t) ++ js ":" ++ task_text t
               ++ mjoin ((λ st, match sub_text st with
                                | JString x => js "," ++ x
                                | _ => []
                                end) <$> default [] (task_subtasks t))
               ++ js "}") <$> ts)
  ++ js "]".

Definition stamp : nat → Z := λ i, 1700000005000 + Z.of_nat i.

(** The report with the two steps of a breakdown stamped by [stamp]. *)
Definition detailed : Task Z :=
  mkTask 1700000000000 (js "Write report") false
    (Some [mkSubTask 1700000005000 (JString (js "Open the document")) false;
           mkSubTask 1700000005001 (JString (js "Write outline")) false])
    (Some true).

(** A remote service that answers every request with a successful response
    whose text part is [body_text]. *)
Definition answers (body_text : string) : jsstring → fetch_outcome :=
  λ _, Responded true
         (jsq "{'candidates':[{'content':{'parts':[{'text':'" ++ jsq body_text
          ++ jsq "'}],'role':'model'}}]}").

End Sample.

(* ===================================================================== *)
(** * [JSON.parse] on sample texts *)
(* ===================================================================== *)

Module JsonExamples.

Example parse_task_list :
  Json.parse (jsq "[{'id':1700000000000,'text':'Write report','completed':false,'subtasks':[],'isExpanded':false}]")
  = Some (JArray [JObject [(js "id", JNumber 1700000000000 0);
                           (js "text", JString (js "Write report"));
                           (js "completed", JBool false);
                           (js "subtasks", JArray []);
                           (js "isExpanded", JBool false)]]).
Proof. reflexivity. Qed.

Example parse_numbers :
  Json.parse (js " [0, -12.50e+3, 1E-2] ")
  = Some (JArray [JNumber 0 0; JNumber (-1250) 1; JNumber 1 (-2)]).
Proof. reflexivity. Qed.

Example parse_escapes :
  Json.parse (jsq "'a\u0041\n\''") = Some (JString [97; 65; 10; 34]%N).
Proof. reflexivity. Qed.

Example parse_rejects :
  Json.parse (js "") = None
  ∧ Json.parse (js "not json") = None
  ∧ Json.parse (js "undefined") = None
  ∧ Json.parse (js "[1,]") = None
  ∧ Json.parse (js "01") = None
  ∧ Json.parse (js "1.") = None
  ∧ Json.parse (js "[1 2]") = None
  ∧ Json.parse (jsq "{'a':1,}") = None
  ∧ Json.parse (jsq "{a:1}") = None
  ∧ Json.parse (jsq "'open") = None
  ∧ Json.parse (js "null null") = None.
Proof. repeat split; reflexivity. Qed.

End JsonExamples.

(* ===================================================================== *)
(** * Properties of the durable store *)
(* ===================================================================== *)

Module StoreFacts.
Import Store.

(** Evaluating [load] by cases on what [getItem] gives. *)
Lemma load_blocked st key d :
  blocked st = true →
  load key d st = (Returns d, st, [ConsoleError None SecurityError]).
Proof.
  intros Hb. unfold load, try_catch, bind, getItem. rewrite Hb. reflexivity.
Qed.

Lemma load_absent st key d :
  blocked st = false → items st !! key = None →
  load key d st = (Returns d, st, []).
Proof.
  intros Hb Hk. unfold load, try_catch, bind, getItem. rewrite Hb, Hk.
  reflexivity.
Qed.

Lemma load_empty st key d :
  blocked st = false → items st !! key = Some [] →
  load key d st = (Returns d, st, []).
Proof.
  intros Hb Hk. unfold load, try_catch, bind, getItem. rewrite Hb, Hk.
  reflexivity.
Qed.

Lemma load_parsed st key d raw v :
  blocked st = false → items st !! key = Some raw → raw ≠ [] →
  Json.parse raw = Some v →
  load key d st = (Returns v, st, []).
Proof.
  intros Hb Hk Hne Hp. unfold load, try_catch, bind, getItem, JSON_parse.
  rewrite Hb, Hk, Hp. destruct raw; [congruence | reflexivity].
Qed.

Lemma load_malformed st key d raw :
  blocked st = false → items st !! key = Some raw → raw ≠ [] →
  Json.parse raw = None →
  load key d st = (Returns d, st, [ConsoleError None SyntaxError]).
Proof.
  intros Hb Hk Hne Hp. unfold load, try_catch, bind, getItem, JSON_parse.
  rewrite Hb, Hk, Hp. destruct raw; [congruence | reflexivity].
Qed.

(** [load] always completes normally and leaves the storage as it was. *)
Lemma load_returns st key d :
  ∃ v out, load key d st = (Returns v, st, out).
Proof.
  destruct (blocked st) eqn:Hb.
  { eauto using load_blocked. }
  destruct (items st !! key) as [raw|] eqn:Hk.
  2: { eauto using load_absent. }
  destruct raw as [|c raw'] eqn:Hraw.
  { eauto using load_empty. }
  destruct (Json.parse (c :: raw')) as [v|] eqn:Hp.
  - exists v, []. by apply (load_parsed _ _ _ (c :: raw')).
  - exists d, [ConsoleError None SyntaxError].
    by apply (load_malformed _ _ _ (c :: raw')).
Qed.

(** A value other than the default comes from a stored text that parses. *)
Lemma load_value st key d v out :
  load key d st = (Returns v, st, out) →
  v = d ∨ ∃ raw, items st !! key = Some raw ∧ Json.parse raw = Some v.
Proof.
  intros H.
  destruct (blocked st) eqn:Hb.
  { rewrite (load_blocked _ _ _ Hb) in H. left; congruence. }
  destruct (items st !! key) as [raw|] eqn:Hk.
  2: { rewrite (load_absent _ _ _ Hb Hk) in H. left; congruence. }
  destruct raw as [|c raw'].
  { rewrite (load_empty _ _ _ Hb Hk) in H. left; congruence. }
  destruct (Json.parse (c :: raw')) as [w|] eqn:Hp.
  - rewrite (load_parsed _ _ _ _ w Hb Hk) in H by done.
    right. exists (c :: raw'). split; [done | congruence].
  - rewrite (load_malformed _ _ _ _ Hb Hk) in H by done. left; congruence.
Qed.

(** C1 (as amended): on a readable storage, [load] returns the supplied
    default without logging when no raw string is stored under the key and
    when the stored raw string is empty; it logs the [SyntaxError] and
    returns the default when a non-empty stored raw string does not
    deserialize; and whatever the storage holds, also when it cannot be
    read at all, [load] completes normally: nothing is thrown to the
    caller. *)
Theorem load_falls_back_to_default (st : Storage) (key : jsstring) (d : json) :
  (∃ v out, load key d st = (Returns v, st, out))
  ∧ (blocked st = false → items st !! key = None →
     load key d st = (Returns d, st, []))
  ∧ (blocked st = false → items st !! key = Some [] →
     load key d st = (Returns d, st, []))
  ∧ (∀ raw, blocked st = false → items st !! key = Some raw → raw ≠ [] →
       Json.parse raw = None →
       load key d st = (Returns d, st, [ConsoleError None SyntaxError]))
  ∧ (blocked st = true →
     load key d st = (Returns d, st, [ConsoleError None SecurityError])).
Proof.
  split; [apply load_returns |].
  split; [apply load_absent |].
  split; [apply load_empty |].
  split; [| apply load_blocked].
  intros raw Hb Hk Hne Hp. by apply (load_malformed _ _ _ raw).
Qed.

(** A stored text that is not JSON is logged and replaced by the default. *)
Lemma load_falls_back_to_default_witness :
  let st := mkStorage {[ js "zenfocus-tasks" := jsq "[{'id':17" ]} 5000000 false in
  load (js "zenfocus-tasks") (JArray []) st
  = (Returns (JArray []), st, [ConsoleError None SyntaxError]).
Proof.
  intros st.
  destruct (load_falls_back_to_default st (js "zenfocus-tasks") (JArray []))
    as (_ & _ & _ & H & _).
  apply (H (jsq "[{'id':17")); [reflexivity | by vm_compute | done | by vm_compute].
Defined.

(** C1, as stated, fails on the empty string: it is stored under the key,
    [JSON.parse] rejects it, and [load] returns the default without logging
    anything, because [item ? ... : initialValue] never parses it. *)
Lemma load_empty_string_not_logged :
  let st := mkStorage {[ js "zenfocus-tasks" := [] ]} 5000000 false in
  getItem (js "zenfocus-tasks") st = (Returns (Some []), st, [])
  ∧ Json.parse [] = None
  ∧ load (js "zenfocus-tasks") (JArray []) st = (Returns (JArray []), st, []).
Proof.
  intros st. split; [by vm_compute |]. split; [reflexivity |].
  apply load_empty; by vm_compute.
Qed.

(** C8 (as amended): on a readable storage, when [getItem] gives null (no
    raw string is stored under the key) [load] returns the supplied default;
    when the stored raw string is the literal [null], or any text that
    deserializes to null, [load] returns that null value and not the
    default. *)
Theorem load_null_literal (st : Storage) (key : jsstring) (d : json)
    (Hread : blocked st = false) :
  (items st !! key = None → load key d st = (Returns d, st, []))
  ∧ (∀ raw, items st !! key = Some raw → Json.parse raw = Some JNull →
       load key d st = (Returns JNull, st, []))
  ∧ Json.parse (js "null") = Some JNull.
Proof.
  split; [by apply load_absent |]. split; [| reflexivity].
  intros raw Hk Hp. apply (load_parsed _ _ _ raw); try done.
  intros ->. discriminate Hp.
Qed.

Lemma load_null_literal_witness :
  let st := mkStorage {[ js "zenfocus-sound" := js "null" ]} 5000000 false in
  load (js "zenfocus-sound") (JBool true) st = (Returns JNull, st, []).
Proof.
  intros st.
  destruct (load_null_literal st (js "zenfocus-sound") (JBool true) eq_refl)
    as (_ & H & _).
  apply (H (js "null")); by vm_compute.
Defined.

(** C8, as stated, fails: with the literal [null] stored under the key and
    the empty task list as default, [load] returns null, which is not the
    default. *)
Lemma load_null_literal_not_default :
  let st := mkStorage {[ js "zenfocus-tasks" := js "null" ]} 5000000 false in
  ∃ v out, load (js "zenfocus-tasks") (JArray []) st = (Returns v, st, out)
           ∧ v = JNull ∧ v ≠ JArray [].
Proof.
  intros st. exists JNull, []. split; [| done].
  apply (load_parsed _ _ _ (js "null")); by vm_compute.
Qed.

Section SetValueFacts.
Variable stringify : json → jsstring.

(** A failed write leaves the storage as it was and prints nothing. *)
Lemma setItem_throws key text st e st' out :
  setItem key text st = (Throws e, st', out) → st' = st ∧ out = [].
Proof.
  unfold setItem. destruct (blocked st).
  - intros [= _ <- <-]. done.
  - destruct (_ <=? _)%N; [discriminate |]. intros [= _ <- <-]. done.
Qed.

Lemma setItem_returns key text st st' out :
  setItem key text st = (Returns tt, st', out) →
  items st' = <[key := text]> (items st) ∧ out = [].
Proof.
  unfold setItem. destruct (blocked st); [discriminate |].
  destruct (_ <=? _)%N; [| discriminate]. intros [= <- <-]. done.
Qed.

(** C9: [setValue] never throws, and the React state holds the new value
    afterwards whatever happens to the write; when the write performed by
    [setValue] fails with [e] (the quota is exceeded, or storage access is
    denied), [e] is logged with [console.error], the storage is left as it
    was, and the state has been updated to the new value. *)
Theorem setValue_write_failure (h : Hook) (key : jsstring) (value : json) :
  (∃ h' out, setValue stringify key value h = (Returns tt, h', out)
             ∧ storedValue h' = value)
  ∧ (∀ e st' out,
       setItem key (stringify value) (storage h) = (Throws e, st', out) →
       setValue stringify key value h
       = (Returns tt, mkHook value (storage h), [ConsoleError None e])).
Proof.
  unfold setValue, try_catch, bind, on_storage, setStoredValue, modify,
    console_error; simpl.
  destruct (setItem key (stringify value) (storage h)) as [[r st1] o1] eqn:Hw.
  split.
  - destruct r as [[]|e].
    + eexists _, _. split; reflexivity.
    + eexists _, _. split; reflexivity.
  - intros e st' out [= -> -> ->].
    destruct (setItem_throws _ _ _ _ _ _ Hw) as [-> ->]. reflexivity.
Qed.

End SetValueFacts.

(** Writing the sound flag into a storage that is already full. *)
Lemma setValue_write_failure_witness :
  let stringify := λ v, match v with JBool false => js "false" | _ => js "true" end in
  let full := mkStorage {[ js "zenfocus-tasks" := js "[]" ]} 16 false in
  setValue stringify (js "zenfocus-sound") (JBool false) (mkHook (JBool true) full)
  = (Returns tt, mkHook (JBool false) full, [ConsoleError None QuotaExceededError]).
Proof.
  intros stringify full.
  destruct (setValue_write_failure stringify (mkHook (JBool true) full)
              (js "zenfocus-sound") (JBool false)) as [_ H].
  apply (H QuotaExceededError full []). by vm_compute.
Defined.

End StoreFacts.

(* ===================================================================== *)
(** * Properties of the task repository *)
(* ===================================================================== *)

Section StringFacts.

Lemma trim_start_nil s : trim_start s = [] ↔ whitespace_only s.
Proof.
  unfold whitespace_only. induction s as [|c s IH]; simpl.
  - split; [constructor | done].
  - destruct (is_js_whitespace c) eqn:Hc.
    + rewrite IH. split; [by constructor | by inversion 1].
    + split; [done |]. inversion 1; congruence.
Qed.

(** What [trim_start] leaves is empty or starts with a non-space. *)
Lemma trim_start_whitespace_only s :
  whitespace_only (trim_start s) → trim_start s = [].
Proof.
  induction s as [|c s IH]; simpl; [done |].
  destruct (is_js_whitespace c) eqn:Hc; [done |].
  inversion 1; congruence.
Qed.

Lemma trim_nil s : trim s = [] ↔ whitespace_only s.
Proof.
  unfold trim, trim_end. rewrite <- (trim_start_nil s). split.
  - intros H. apply (f_equal reverse) in H. rewrite reverse_involutive in H.
    rewrite reverse_nil in H. apply trim_start_nil in H.
    apply trim_start_whitespace_only.
    unfold whitespace_only in *. by rewrite Forall_reverse in H.
  - intros ->. reflexivity.
Qed.

Lemma str_truthy_trim s : str_truthy (trim s) = false ↔ whitespace_only s.
Proof.
  rewrite <- trim_nil. destruct (trim s); simpl; split; congruence.
Qed.

End StringFacts.

Section TaskFacts.
Context {number : Type} `{EqDecision number}.
Implicit Types (t : Task number) (ts : list (Task number)).

(** ** Adding a task *)

Lemma addTask_blank (now : number) text ts :
  whitespace_only text → addTask now text ts = (ts, text).
Proof.
  intros Hw. unfold addTask. apply str_truthy_trim in Hw. by rewrite Hw.
Qed.

Lemma addTask_appends (now : number) text ts :
  ¬ whitespace_only text →
  addTask now text ts
  = (ts ++ [mkTask now text false (Some []) (Some false)], []).
Proof.
  intros Hw. unfold addTask.
  destruct (str_truthy (trim text)) eqn:Ht; [done |].
  by apply str_truthy_trim in Ht.
Qed.

Lemma task_ids_snoc ts t : task_ids (ts ++ [t]) = task_ids ts ++ [task_id t].
Proof. unfold task_ids. by rewrite fmap_app. Qed.

Lemma NoDup_snoc_iff (l : list number) x : NoDup (l ++ [x]) ↔ NoDup l ∧ x ∉ l.
Proof.
  rewrite NoDup_app. split.
  - intros (Hl & Hx & _). split; [done |]. intros Hin.
    apply (Hx x Hin). by left.
  - intros [Hl Hx]. split; [done |]. split.
    + intros y Hy Hy'. apply list_elem_of_singleton in Hy'. by subst.
    + apply NoDup_singleton.
Qed.

(** C5 (as amended): [add] leaves the collection (and the input field)
    unchanged when the text is empty or white space only; otherwise it
    appends exactly one task at the end, whose id is the clock reading taken
    at the add, with the text as typed, [completed = false], an empty
    subtask sequence and [isExpanded = false], and leaves the existing tasks
    as they are.  The id is fresh, and task ids stay unique, exactly when no
    task of the collection already carries that clock reading. *)
Theorem addTask_spec (now : number) (text : jsstring) ts :
  (whitespace_only text → addTask now text ts = (ts, text))
  ∧ (¬ whitespace_only text →
     addTask now text ts
     = (ts ++ [mkTask now text false (Some []) (Some false)], [])
     ∧ (NoDup (task_ids ts) →
        (NoDup (task_ids (addTask now text ts).1) ↔ now ∉ task_ids ts))).
Proof.
  split; [apply addTask_blank |].
  intros Hw. rewrite (addTask_appends _ _ _ Hw). split; [done |].
  intros Hnd. simpl. rewrite task_ids_snoc, NoDup_snoc_iff. simpl. tauto.
Qed.

(** ** Toggling and removing *)


(** A map that changes no task is the identity. *)
Lemma fmap_tasks_id (f : Task number → Task number) ts :
  (∀ t, t ∈ ts → f t = t) → f <$> ts = ts.
Proof.
  induction ts as [|t ts IH]; intros Hf; simpl; [done |].
  rewrite Hf by left. f_equal. apply IH. intros t' Ht'. apply Hf. by right.
Qed.










(** ** Uniqueness of identifiers *)

(** A map over the collection that keeps every task's id, and keeps the
    subtask ids of each task duplicate-free, keeps [ids_unique]. *)
Lemma ids_unique_fmap (f : Task number → Task number) ts :
  (∀ t, task_id (f t) = task_id t) →
  (∀ t, t ∈ ts → NoDup (subtask_ids t) → NoDup (subtask_ids (f t))) →
  ids_unique ts → ids_unique (f <$> ts).
Proof.
  intros Hid Hsub [Hnd Hall]. split.
  - unfold task_ids in *. rewrite <- list_fmap_compose.
    erewrite list_fmap_ext; [exact Hnd |]. intros i t _. simpl. apply Hid.
  - apply Forall_fmap. rewrite Forall_forall in Hall |- *.
    intros t Ht. simpl. apply Hsub; auto.
Qed.

Lemma subtask_ids_flip (subtaskId : number) (subs : list (SubTask number)) :
  sub_id <$> (flipSubtask subtaskId <$> subs) = sub_id <$> subs.
Proof.
  rewrite <- list_fmap_compose. apply list_fmap_ext. intros _ st _. simpl.
  unfold flipSubtask. by destruct (decide _).
Qed.

Lemma ids_unique_delete id ts : ids_unique ts → ids_unique (deleteTask id ts).
Proof.
  intros [Hnd Hall]. unfold deleteTask.
  pose proof (sublist_filter (λ t, task_id t ≠ id) ts) as Hsub. split.
  - unfold task_ids in *. eapply sublist_NoDup; [exact Hnd |].
    by apply fmap_sublist.
  - rewrite Forall_forall in Hall |- *. intros t Ht. apply Hall.
    by apply list_elem_of_filter in Ht as [_ Ht].
Qed.

Lemma ids_unique_add (now : number) text ts :
  (str_truthy (trim text) = true → now ∉ task_ids ts) →
  ids_unique ts → ids_unique (addTask now text ts).1.
Proof.
  intros Hfresh [Hnd Hall]. unfold addTask.
  destruct (str_truthy (trim text)); simpl; [| done]. split.
  - rewrite task_ids_snoc, NoDup_snoc_iff. auto.
  - apply Forall_app. split; [done |]. constructor; [| constructor].
    unfold subtask_ids. simpl. constructor.
Qed.

Lemma ids_unique_attach taskId (new : list (SubTask number)) ts :
  Forall (λ t, task_id t = taskId →
               NoDup (sub_id <$> new)
               ∧ ∀ x, x ∈ subtask_ids t → x ∉ sub_id <$> new) ts →
  ids_unique ts → ids_unique (attachSubtasks taskId new ts).
Proof.
  intros Hfresh. apply ids_unique_fmap.
  - intros t. by destruct (decide _).
  - intros t Ht Hnd. destruct (decide (task_id t = taskId)) as [Heq|]; [| done].
    rewrite Forall_forall in Hfresh. destruct (Hfresh t Ht Heq) as [Hnew Hdisj].
    unfold subtask_ids in *. simpl. rewrite fmap_app. apply NoDup_app. auto.
Qed.

Lemma ids_unique_apply (o : operation number) ts :
  operation_fresh o ts → ids_unique ts → ids_unique (apply_operation o ts).
Proof.
  destruct o as [now text | id | taskId subtaskId | id | id | taskId stamp steps];
    simpl; intros Hfresh Hu.
  - by apply ids_unique_add.
  - apply ids_unique_fmap; [| | done].
    + intros t. by destruct (decide _).
    + intros t _ Hnd. by destruct (decide _).
  - apply ids_unique_fmap; [| | done].
    + intros t. by destruct (decide _).
    + intros t _ Hnd. destruct (decide _); [done |].
      unfold subtask_ids in *. simpl.
      destruct (task_subtasks t) as [subs|]; simpl in *; [| done].
      by rewrite subtask_ids_flip.
  - by apply ids_unique_delete.
  - apply ids_unique_fmap; [| | done].
    + intros t. by destruct (decide _).
    + intros t _ Hnd. by destruct (decide _).
  - by apply ids_unique_attach.
Qed.

Lemma ids_unique_run (os : list (operation number)) ts :
  operations_fresh os ts → ids_unique ts → ids_unique (run_operations os ts).
Proof.
  revert ts. induction os as [|o os IH]; simpl; intros ts Hfresh Hu; [done |].
  destruct Hfresh as [Ho Hos]. apply IH; [done |]. by apply ids_unique_apply.
Qed.

(** C7 (as amended): for every sequence of repository operations starting
    from the empty collection, task ids stay unique across the collection
    and subtask ids stay unique within their parent task, provided the
    environment supplies fresh identifiers: the clock reading of each add
    that creates a task is carried by no task of the collection at that
    moment, and the identifiers drawn for the subtasks of a breakdown differ
    from each other and from those the task already has. *)
Theorem ids_stay_unique (os : list (operation number))
    (Hfresh : operations_fresh os []) :
  ids_unique (run_operations os []).
Proof.
  apply ids_unique_run; [done |]. split; constructor.
Qed.

End TaskFacts.

(** ** Concrete collections *)

Section TaskExamples.
Import Sample.

(** Adding to an empty collection. *)
Lemma addTask_spec_witness :
  addTask 1700000000000 (js "Write report") [] = ([report], [])
  ∧ addTask 1700000000000 (js "   ") [report] = ([report], js "   ").
Proof.
  destruct (addTask_spec 1700000000000 (js "Write report") []) as [_ Happ].
  destruct (addTask_spec 1700000000000 (js "   ") [report]) as [Hblank _].
  split.
  - apply Happ. intros Hw. by apply str_truthy_trim in Hw.
  - apply Hblank. by apply str_truthy_trim.
Defined.

(** C5, as stated, fails on the freshness of the id: an add whose clock
    reading equals the id of a task already in the collection appends a task
    with that same id. *)
Lemma addTask_id_not_fresh :
  ∃ new, (addTask 1700000000000 (js "Call Bob") [report]).1 = [report; new]
         ∧ task_id new ∈ task_ids [report]
         ∧ ¬ NoDup (task_ids [report; new]).
Proof.
  eexists. split; [reflexivity |]. split.
  - by left.
  - intros Hnd. apply NoDup_cons in Hnd as [Hnotin _]. apply Hnotin. by left.
Qed.

(** A session whose clock readings and drawn identifiers are all distinct. *)
Lemma ids_stay_unique_witness :
  ids_unique
    (run_operations
       [Add 1700000000000 (js "Write report");
        AttachSubtasks 1700000000000 (λ i, 1700000005000 + Z.of_nat i)
          [JString (js "Open the document"); JString (js "Write outline")];
        ToggleSubtaskCompleted 1700000000000 1700000005001;
        Add 1700000009000 (js "Call Bob");
        Remove 1700000000000]
       []).
Proof.
  apply ids_stay_unique. simpl. repeat split.
  - intros _. apply not_elem_of_nil.
  - repeat constructor.
    + rewrite list_elem_of_singleton. lia.
    + apply not_elem_of_nil.
    + intros x Hx. simpl in Hx. by apply not_elem_of_nil in Hx.
  - intros _. unfold task_ids; simpl. rewrite list_elem_of_singleton. lia.
Defined.

(** C7, as stated, fails: two adds that read the same clock value give two
    tasks with one id, and a breakdown whose two draws coincide gives two
    subtasks with one id in the same task. *)
Lemma ids_not_unique_without_fresh_draws :
  ¬ ids_unique
      (run_operations
         [Add 1700000000000 (js "Write report");
          Add 1700000000000 (js "Call Bob")] [])
  ∧ ¬ ids_unique
        (run_operations
           [Add 1700000000000 (js "Write report");
            AttachSubtasks 1700000000000 (λ _, 1700000005000)
              [JString (js "Open the document"); JString (js "Write outline")]]
           []).
Proof.
  split.
  - intros [Hnd _]. vm_compute in Hnd.
    apply NoDup_cons in Hnd as [Hnotin _]. apply Hnotin. by left.
  - intros [_ Hall]. vm_compute in Hall.
    apply Forall_cons in Hall as [Hnd _].
    apply NoDup_cons in Hnd as [Hnotin _]. apply Hnotin. by left.
Qed.

End TaskExamples.

(* ===================================================================== *)
(** * Properties of the AI advisory client *)
(* ===================================================================== *)

Section ClientFacts.
Context {number : Type} `{EqDecision number}.
Variable fetch : jsstring → fetch_outcome.
Variable stringify : list (Task number) → jsstring.
Implicit Types (a : App number) (captured : list (Task number)).

(** ** What the client returns, by what the request settles to *)

Lemma callGemini_rejected prompt :
  fetch prompt = Rejected → call_returns fetch prompt None (ai_error NetworkError).
Proof.
  intros Hf S s. unfold callGemini, try_catch. rewrite Hf. reflexivity.
Qed.

Lemma callGemini_not_ok prompt body :
  fetch prompt = Responded false body →
  call_returns fetch prompt None (ai_error (Error "AI Response failed")).
Proof.
  intros Hf S s. unfold callGemini, try_catch. rewrite Hf. reflexivity.
Qed.

Lemma callGemini_bad_body prompt body :
  fetch prompt = Responded true body → Json.parse body = None →
  call_returns fetch prompt None (ai_error SyntaxError).
Proof.
  intros Hf Hp S s. unfold callGemini, try_catch, bind, JSON_parse.
  rewrite Hf. simpl. rewrite Hp. reflexivity.
Qed.

Lemma callGemini_null_body prompt body :
  fetch prompt = Responded true body → Json.parse body = Some JNull →
  call_returns fetch prompt None (ai_error TypeError).
Proof.
  intros Hf Hp S s. unfold callGemini, try_catch, bind, JSON_parse.
  rewrite Hf. simpl. rewrite Hp. reflexivity.
Qed.

Lemma callGemini_ok prompt body data :
  fetch prompt = Responded true body → Json.parse body = Some data →
  data ≠ JNull →
  call_returns fetch prompt (Some (or_empty (text_part data))) [].
Proof.
  intros Hf Hp Hd S s. unfold callGemini, try_catch, bind, JSON_parse.
  rewrite Hf. simpl. rewrite Hp. by destruct data.
Qed.

(** The client never throws: every call completes with a value. *)
Lemma callGemini_returns prompt :
  ∃ r out, call_returns fetch prompt r out.
Proof.
  destruct (fetch prompt) as [|[] body] eqn:Hf.
  - eauto using callGemini_rejected.
  - destruct (Json.parse body) as [data|] eqn:Hp.
    + assert (data = JNull ∨ data ≠ JNull) as [->|Hd]
        by (destruct data; auto; right; discriminate).
      * eauto using callGemini_null_body.
      * eauto using callGemini_ok.
    + eauto using callGemini_bad_body.
  - eauto using callGemini_not_ok.
Qed.

(** ** Every outcome of the client *)

(** Two descriptions of the same call agree. *)
Lemma call_returns_agree prompt r out r' out' :
  call_returns fetch prompt r out → call_returns fetch prompt r' out' →
  r = r' ∧ out = out'.
Proof.
  intros H H'. specialize (H unit tt). rewrite (H' unit tt) in H.
  by injection H as -> ->.
Qed.

Lemma or_empty_cases (v : option json) :
  truthy (or_empty v) = true ∨ or_empty v = JString [].
Proof.
  destruct v as [x|]; simpl; [| by right].
  destruct (truthy x) eqn:Hx; [by left | by right].
Qed.

Lemma call_outcome (prompt : jsstring) :
  ∃ r out, call_returns fetch prompt r out
    ∧ (r = None
       ↔ fetch prompt = Rejected
         ∨ ∃ ok body, fetch prompt = Responded ok body
             ∧ (ok = false ∨ Json.parse body = None
                ∨ Json.parse body = Some JNull))
    ∧ match r with
      | None => ∃ e, out = ai_error e
      | Some v => out = [] ∧ (truthy v = true ∨ v = JString [])
      end.
Proof.
  destruct (fetch prompt) as [|[] body] eqn:Hf.
  - exists None, (ai_error NetworkError).
    split; [by apply callGemini_rejected |]. split; [| by eexists].
    split; [by left | done].
  - destruct (Json.parse body) as [data|] eqn:Hp.
    + assert (data = JNull ∨ data ≠ JNull) as [->|Hd]
        by (destruct data; auto; right; discriminate).
      * exists None, (ai_error TypeError).
        split; [by eapply callGemini_null_body |]. split; [| by eexists].
        split; [| done]. intros _. right. exists true, body. auto.
      * exists (Some (or_empty (text_part data))), [].
        split; [by eapply callGemini_ok |].
        split; [| split; [done | apply or_empty_cases]].
        split; [done |].
        intros [? | (ok & body' & [= <- <-] & [? | [? | ?]])]; congruence.
    + exists None, (ai_error SyntaxError).
      split; [by eapply callGemini_bad_body |]. split; [| by eexists].
      split; [| done]. intros _. right. exists true, body. auto.
  - exists None, (ai_error (Error "AI Response failed")).
    split; [by eapply callGemini_not_ok |]. split; [| by eexists].
    split; [| done]. intros _. right. exists false, body. auto.
Qed.

(** ** The write-through of [setTasks] *)

(** A write either succeeds without output, storing the text under the
    key, or throws and leaves the storage as it was. *)
Lemma setItem_cases key text st :
  (∃ st', Store.setItem key text st = (Returns tt, st', [])
          ∧ Store.items st' = <[key := text]> (Store.items st))
  ∨ (∃ e, Store.setItem key text st = (Throws e, st, [])).
Proof.
  unfold Store.setItem. destruct (Store.blocked st); [right; by eexists |].
  destruct (_ <=? _)%N; [left | right]; by eexists.
Qed.

Lemma setTasks_saved ts a st' :
  Store.setItem (js "zenfocus-tasks") (stringify ts) (localStorage a)
  = (Returns tt, st', []) →
  setTasks stringify ts a
  = (Returns tt,
     mkApp ts (loadingTaskId a) (coachTip a) (isCoachLoading a) st', []).
Proof.
  intros Hw. unfold setTasks, try_catch, bind, modify, on_localStorage.
  simpl. by rewrite Hw.
Qed.

Lemma setTasks_unsaved ts a e st' o :
  Store.setItem (js "zenfocus-tasks") (stringify ts) (localStorage a)
  = (Throws e, st', o) →
  setTasks stringify ts a
  = (Returns tt,
     mkApp ts (loadingTaskId a) (coachTip a) (isCoachLoading a)
           (localStorage a),
     [ConsoleError None e]).
Proof.
  intros Hw.
  destruct (StoreFacts.setItem_throws _ _ _ _ _ _ Hw) as [-> ->].
  unfold setTasks, try_catch, bind, modify, on_localStorage, console_error.
  simpl. by rewrite Hw.
Qed.

(** ** The breakdown handler, by what the client returned *)

Section Breakdown.
Variables (captured : list (Task number)) (stamp : nat → number)
  (taskId : number) (taskText : jsstring).
Variables (r : option json) (out : list output).
Hypothesis Hcall : call_returns fetch (breakdown_prompt taskText) r out.

Lemma breakdown_no_result a :
  match r with Some v => truthy v = false | None => True end →
  handleSmartBreakdown fetch stringify captured stamp taskId taskText a
  = (Returns tt, idle a (tasks a), out).
Proof.
  intros Hr. unfold handleSmartBreakdown, bind, setLoadingTaskId, modify.
  rewrite Hcall. destruct r as [v|]; [rewrite Hr |]; simpl;
    by rewrite app_nil_r.
Qed.

Lemma breakdown_not_a_string a v :
  r = Some v → truthy v = true → (∀ s, v ≠ JString s) →
  handleSmartBreakdown fetch stringify captured stamp taskId taskText a
  = (Returns tt, idle a (tasks a), out ++ breakdown_error TypeError).
Proof.
  intros -> Hv Hns. unfold handleSmartBreakdown, bind, setLoadingTaskId, modify.
  rewrite Hcall, Hv. destruct v; try reflexivity. by destruct (Hns s).
Qed.

Lemma breakdown_unparsable a text :
  r = Some (JString text) → text ≠ [] →
  Json.parse (strip_fences text) = None →
  handleSmartBreakdown fetch stringify captured stamp taskId taskText a
  = (Returns tt, idle a (tasks a), out ++ breakdown_error SyntaxError).
Proof.
  intros -> Hne Hp. unfold handleSmartBreakdown, bind, setLoadingTaskId, modify.
  rewrite Hcall. destruct text as [|c text']; [done |]. simpl.
  unfold try_catch, bind, cleanJson, JSON_parse, ret. rewrite Hp. reflexivity.
Qed.

(** The steps parsed and the write succeeded: the storage holds the new
    collection and nothing is printed. *)
Lemma breakdown_steps_saved a text items st' :
  r = Some (JString text) → text ≠ [] →
  Json.parse (strip_fences text) = Some (JArray items) →
  Store.setItem (js "zenfocus-tasks")
    (stringify (attachSubtasks taskId (newSubtasks stamp items) captured))
    (localStorage a)
  = (Returns tt, st', []) →
  handleSmartBreakdown fetch stringify captured stamp taskId taskText a
  = (Returns tt,
     idle_with a (attachSubtasks taskId (newSubtasks stamp items) captured) st',
     out).
Proof.
  intros -> Hne Hp Hw.
  unfold handleSmartBreakdown, bind, setLoadingTaskId, modify.
  rewrite Hcall. destruct text as [|c text']; [done |]. simpl.
  unfold try_catch, bind, cleanJson, JSON_parse, ret. rewrite Hp.
  rewrite (setTasks_saved _ _ st') by exact Hw. simpl.
  by rewrite app_nil_r.
Qed.

(** The steps parsed and the write threw: the state has the new collection
    all the same, the storage is as it was, and the error is logged. *)
Lemma breakdown_steps_unsaved a text items e st' o :
  r = Some (JString text) → text ≠ [] →
  Json.parse (strip_fences text) = Some (JArray items) →
  Store.setItem (js "zenfocus-tasks")
    (stringify (attachSubtasks taskId (newSubtasks stamp items) captured))
    (localStorage a)
  = (Throws e, st', o) →
  handleSmartBreakdown fetch stringify captured stamp taskId taskText a
  = (Returns tt,
     idle a (attachSubtasks taskId (newSubtasks stamp items) captured),
     out ++ [ConsoleError None e]).
Proof.
  intros -> Hne Hp Hw.
  unfold handleSmartBreakdown, bind, setLoadingTaskId, modify.
  rewrite Hcall. destruct text as [|c text']; [done |]. simpl.
  unfold try_catch, bind, cleanJson, JSON_parse, ret. rewrite Hp.
  rewrite (setTasks_unsaved _ _ e st' o) by exact Hw. simpl.
  by rewrite ?app_nil_r.
Qed.

(** The steps parsed: what the handler leaves, whatever the write does. *)
Lemma breakdown_steps a text items :
  r = Some (JString text) → text ≠ [] →
  Json.parse (strip_fences text) = Some (JArray items) →
  ∃ a' o,
    handleSmartBreakdown fetch stringify captured stamp taskId taskText a
    = (Returns tt, a', out ++ o)
    ∧ tasks a' = attachSubtasks taskId (newSubtasks stamp items) captured
    ∧ loadingTaskId a' = None
    ∧ coachTip a' = coachTip a
    ∧ isCoachLoading a' = isCoachLoading a
    ∧ ((o = []
        ∧ Store.items (localStorage a')
          = <[js "zenfocus-tasks" := stringify (tasks a')]>
              (Store.items (localStorage a)))
       ∨ (∃ e, o = [ConsoleError None e] ∧ localStorage a' = localStorage a)).
Proof.
  intros Hr Hne Hp.
  destruct (setItem_cases (js "zenfocus-tasks")
              (stringify (attachSubtasks taskId (newSubtasks stamp items) captured))
              (localStorage a)) as [(st' & Hw & Hitems) | (e & Hw)].
  - eexists _, []. split.
    + rewrite app_nil_r. by eapply breakdown_steps_saved.
    + simpl. repeat split; try done. left. by split.
  - eexists _, _. split; [by eapply breakdown_steps_unsaved |].
    simpl. repeat split; try done. right. by exists e.
Qed.

Lemma breakdown_not_an_array a text v :
  r = Some (JString text) → text ≠ [] →
  Json.parse (strip_fences text) = Some v → (∀ items, v ≠ JArray items) →
  handleSmartBreakdown fetch stringify captured stamp taskId taskText a
  = (Returns tt, idle a (tasks a), out).
Proof.
  intros -> Hne Hp Hna. unfold handleSmartBreakdown, bind, setLoadingTaskId, modify.
  rewrite Hcall. destruct text as [|c text']; [done |]. simpl.
  unfold try_catch, bind, cleanJson, JSON_parse, ret. rewrite Hp.
  destruct v; simpl; try by rewrite app_nil_r. by destruct (Hna items).
Qed.

End Breakdown.

(** What the handler leaves in every case: it completes normally, no task
    is marked as loading, the coach's state is untouched, and the tasks are
    either those of the state, the storage being untouched, or the captured
    ones with the subtasks generated from a parsed array attached. *)
Lemma breakdown_cases captured (stamp : nat → number) taskId taskText a :
  ∃ a' o,
    handleSmartBreakdown fetch stringify captured stamp taskId taskText a
    = (Returns tt, a', o)
    ∧ loadingTaskId a' = None
    ∧ coachTip a' = coachTip a
    ∧ isCoachLoading a' = isCoachLoading a
    ∧ ((tasks a' = tasks a ∧ localStorage a' = localStorage a)
       ∨ ∃ items,
           tasks a' = attachSubtasks taskId (newSubtasks stamp items) captured
           ∧ ((o = []
               ∧ Store.items (localStorage a')
                 = <[js "zenfocus-tasks" := stringify (tasks a')]>
                     (Store.items (localStorage a)))
              ∨ (∃ e, o = [ConsoleError None e]
                      ∧ localStorage a' = localStorage a))).
Proof.
  destruct (call_outcome (breakdown_prompt taskText))
    as (r & out & Hc & _ & Hout).
  destruct r as [v|].
  2: { eexists _, _. split; [by eapply breakdown_no_result |].
       repeat split; try done. by left. }
  destruct Hout as [-> _].
  destruct (truthy v) eqn:Hv.
  2: { eexists _, _. split; [by eapply breakdown_no_result |].
       repeat split; try done. by left. }
  destruct v as [ | b | m e | text | items | members ];
    try (eexists _, _; split; [by eapply breakdown_not_a_string |];
         repeat split; try done; by left).
  assert (text ≠ []) as Hne by (intros ->; discriminate Hv).
  destruct (Json.parse (strip_fences text)) as [w|] eqn:Hp.
  - destruct w as [ | b | m e | s | items | members ];
      try (eexists _, _; split; [by eapply breakdown_not_an_array |];
           repeat split; try done; by left).
    destruct (breakdown_steps captured stamp taskId taskText _ _ Hc a text items)
      as (a' & o & Hres & Ht & Hl & Htip & Hload & Hw); try done.
    exists a', o. split; [exact Hres |]. repeat split; try done.
    right. by exists items.
  - eexists _, _. split; [by eapply breakdown_unparsable |].
    repeat split; try done. by left.
Qed.




(** ** Responses that lack the expected fields *)

Lemma lacks_fields_text_part data : lacks_fields data → text_part data = None.
Proof.
  unfold lacks_fields, text_part. intros [H1 | [H2 | H3]].
  - by rewrite H1.
  - by rewrite H2.
  - by rewrite H3.
Qed.

Lemma coach_no_result captured a r out :
  call_returns fetch (coach_prompt (activeTaskText captured)) r out →
  match r with Some v => truthy v = false | None => True end →
  getZenCoachTip fetch captured a
  = (Returns tt,
     mkApp (tasks a) (loadingTaskId a) (coachTip a) false (localStorage a),
     out).
Proof.
  intros Hcall Hr. unfold getZenCoachTip, bind, setIsCoachLoading, modify.
  rewrite Hcall. destruct r as [v|]; [rewrite Hr |]; simpl;
    by rewrite app_nil_r.
Qed.

Lemma coach_tip captured a v out :
  call_returns fetch (coach_prompt (activeTaskText captured)) (Some v) out →
  truthy v = true →
  getZenCoachTip fetch captured a
  = (Returns tt,
     mkApp (tasks a) (loadingTaskId a) (Some v) false (localStorage a), out).
Proof.
  intros Hcall Hv. unfold getZenCoachTip, bind, setIsCoachLoading, modify.
  rewrite Hcall, Hv. simpl. by rewrite app_nil_r.
Qed.

(** C10 (as amended): when the response is a success and its body is a
    JSON value other than null that lacks the candidates, content or parts
    field on the path the client reads, the client returns the empty string
    and produces no output; the breakdown handler then leaves the tasks of
    the state unchanged and the coaching handler leaves the displayed tip
    unchanged, and neither shows an alert nor logs anything. *)
Theorem missing_fields_are_silent captured (stamp : nat → number)
    (taskId : number) (taskText : jsstring) a (body : jsstring) (data : json)
    (Hbody : Json.parse body = Some data) (Hdata : data ≠ JNull)
    (Hlacks : lacks_fields data) :
  (fetch (breakdown_prompt taskText) = Responded true body →
   call_returns fetch (breakdown_prompt taskText) (Some (JString [])) []
   ∧ handleSmartBreakdown fetch stringify captured stamp taskId taskText a
     = (Returns tt, idle a (tasks a), []))
  ∧ (fetch (coach_prompt (activeTaskText captured)) = Responded true body →
     call_returns fetch (coach_prompt (activeTaskText captured))
       (Some (JString [])) []
     ∧ getZenCoachTip fetch captured a
       = (Returns tt,
          mkApp (tasks a) (loadingTaskId a) (coachTip a) false (localStorage a),
          [])).
Proof.
  assert (or_empty (text_part data) = JString []) as Hempty
    by (by rewrite lacks_fields_text_part).
  split; intros Hf.
  - pose proof (callGemini_ok _ _ _ Hf Hbody Hdata) as Hcall.
    rewrite Hempty in Hcall. split; [done |].
    by apply (breakdown_no_result _ _ _ _ _ _ Hcall a).
  - pose proof (callGemini_ok _ _ _ Hf Hbody Hdata) as Hcall.
    rewrite Hempty in Hcall. split; [done |].
    by apply (coach_no_result _ _ _ _ Hcall).
Qed.


End ClientFacts.

(** ** Concrete exchanges with the remote service *)

Section ClientExamples.
Import Sample.



(** The text the handler parses is the response text after its clean-up.
    A reply wrapped in a Markdown fence is not JSON as it is received, yet
    its steps are attached and no notice is shown. *)
Lemma fenced_breakdown_is_attached :
  let received :=
    js "```json" ++ [10%N] ++ jsq "['Open the document','Write outline']"
    ++ [10%N] ++ js "```" in
  Json.parse received = None
  ∧ callGemini
      (answers "```json\n[\'Open the document\',\'Write outline\']\n```")
      (breakdown_prompt (js "Write report")) app
    = (Returns (Some (JString received)), app, [])
  ∧ handleSmartBreakdown
      (answers "```json\n[\'Open the document\',\'Write outline\']\n```")
      stringify [report] stamp 1700000000000 (js "Write report") app
    = (Returns tt,
       mkApp [detailed] None None false
         (Store.mkStorage {[ js "zenfocus-tasks" := stringify [detailed] ]}
            5000000 false),
       []).
Proof. intros received. repeat split; by vm_compute. Qed.

(** A successful response without candidates. *)
Lemma missing_fields_are_silent_witness :
  let fetch := λ _ : jsstring, Responded true (jsq "{'candidates':[]}") in
  handleSmartBreakdown fetch stringify [report] stamp 1700000000000
    (js "Write report") app
  = (Returns tt, app, [])
  ∧ getZenCoachTip fetch [report] app = (Returns tt, app, []).
Proof.
  intros fetch.
  destruct (missing_fields_are_silent fetch stringify [report] stamp
              1700000000000 (js "Write report") app (jsq "{'candidates':[]}")
              (JObject [(js "candidates", JArray [])]))
    as [Hb Hc].
  - reflexivity.
  - discriminate.
  - right. left. reflexivity.
  - split.
    + by destruct Hb as [_ Hb].
    + by destruct Hc as [_ Hc].
Defined.

(** C10, as stated, fails on a successful response whose body is the literal
    [null]: it has none of the fields, reading [candidates] from it throws,
    the client catches that, shows the AI-error alert and returns null
    instead of the empty string. *)
Lemma null_body_shows_alert :
  let fetch := λ _ : jsstring, Responded true (js "null") in
  Json.parse (js "null") = Some JNull
  ∧ lacks_fields JNull
  ∧ callGemini fetch (breakdown_prompt (js "Write report")) tt
    = (Returns None, tt,
       [ConsoleError (Some "Gemini API Error:"%string) TypeError;
        Alert "AI Error: Check console for details (likely API quota or key issue)."])
  ∧ handleSmartBreakdown fetch stringify [report] stamp 1700000000000
      (js "Write report") app
    = (Returns tt, app,
       [ConsoleError (Some "Gemini API Error:"%string) TypeError;
        Alert "AI Error: Check console for details (likely API quota or key issue)."]).
Proof.
  intros fetch. split; [reflexivity |]. split; [by left |].
  split; by vm_compute.
Qed.



(** For the same reason the subtasks a task got while the request was in
    flight are not kept: the collection set by the answer has the subtasks
    the task had when the handler was invoked, followed by the new ones. *)
Lemma stale_breakdown_replaces_subtasks :
  let current : App Z :=
    mkApp [planned] (Some 1700000000000) None false empty_storage in
  task_subtasks <$> tasks current = [Some [outline]]
  ∧ ∃ a' o,
      handleSmartBreakdown
        (answers "[\'Open the document\',\'Write outline\']") stringify
        [report] stamp 1700000000000 (js "Write report") current
      = (Returns tt, a', o)
      ∧ task_subtasks <$> tasks a'
        = [Some [mkSubTask 1700000005000 (JString (js "Open the document")) false;
                 mkSubTask 1700000005001 (JString (js "Write outline")) false]].
Proof.
  intros current. split; [reflexivity |].
  eexists (mkApp [detailed] None None false
             (Store.mkStorage {[ js "zenfocus-tasks" := stringify [detailed] ]}
                5000000 false)), [].
  split; [by vm_compute | reflexivity].
Qed.

(** A text part that is a number too small for a double: [JSON.parse] gives
    0 for it, [|| ''] turns that into the empty string, and neither handler
    does anything with it. *)
Lemma underflowing_number_is_falsy :
  let fetch := λ _ : jsstring,
    Responded true (jsq "{'candidates':[{'content':{'parts':[{'text':1e-400}]}}]}") in
  truthy (JNumber 1 (-400)) = false
  ∧ truthy (JNumber 5 (-324)) = true
  ∧ callGemini fetch (coach_prompt (js "Write report")) app
    = (Returns (Some (JString [])), app, [])
  ∧ getZenCoachTip fetch [report] app = (Returns tt, app, [])
  ∧ handleSmartBreakdown fetch stringify [report] stamp 1700000000000
      (js "Write report") app
    = (Returns tt, app, []).
Proof. intros fetch. repeat split; by vm_compute. Qed.

End ClientExamples.

(* ===================================================================== *)
(** * Properties of the timer engine *)
(* ===================================================================== *)

Module TimerFacts.
Import Timer.

(** The effect, by cases. *)
Lemma effect_running s :
  isActive s = true → 0 < timeLeft s → effect s = setTimeout s.
Proof.
  intros Ha Ht. unfold effect. rewrite Ha. simpl.
  destruct (Z.ltb_spec 0 (timeLeft s)); [done | lia].
Qed.

Lemma effect_at_zero s : timeLeft s = 0 → effect s = expire s.
Proof.
  intros Ht. unfold effect. rewrite Ht. simpl. by rewrite andb_false_r.
Qed.

Lemma effect_nothing s :
  isActive s = false ∨ timeLeft s < 0 → timeLeft s ≠ 0 → effect s = s.
Proof.
  intros Ha Ht. unfold effect.
  destruct (Z.eqb_spec (timeLeft s) 0); [lia |].
  destruct Ha as [-> | Hneg]; [done |].
  destruct (Z.ltb_spec 0 (timeLeft s)); [lia |]. by rewrite andb_false_r.
Qed.

Lemma effect_stopped s :
  isActive s = false → timeLeft s ≠ 0 → effect s = s.
Proof. intros Ha. apply effect_nothing. by left. Qed.

Lemma cleanup_tidy s :
  tidy s →
  cleanup s = mkState (timerMode s) (timeLeft s) (isActive s) (soundEnabled s)
                      (timerRef s) [] (nextHandle s) (chimes s).
Proof.
  unfold cleanup, clearTimeout. intros [Hp | (h & Hh & Hr & Hp)].
  - destruct s as [m tl act snd ref pend nh ch]. simpl in *. subst pend.
    destruct ref as [h|]; [| done]. by destruct (h =? 0)%nat.
  - rewrite Hr, Hp. destruct (Nat.eqb_spec h 0); [done |].
    rewrite filter_cons. destruct (decide (h ≠ h)); [done |]. by rewrite filter_nil.
Qed.

Lemma inv_tidy s : inv s → tidy s.
Proof.
  intros (_ & Hrun & _). unfold tidy. destruct (isActive s).
  - right. by destruct Hrun as [_ Hrun].
  - by left.
Qed.

Lemma quiet_tidy s : tidy (quiet s).
Proof. by left. Qed.

Lemma expire_tidy s : tidy s → tidy (expire s).
Proof. by destruct s. Qed.

Lemma rerender_same last s : deps s = last → rerender last s = s.
Proof. intros Hd. unfold rerender. by destruct (decide (deps s = last)). Qed.

Lemma rerender_changed last s :
  deps s ≠ last → tidy s → rerender last s = effect (quiet s).
Proof.
  intros Hd Ht. unfold rerender. destruct (decide (deps s = last)); [done |].
  by rewrite cleanup_tidy.
Qed.

Lemma commit_same last s : deps s = last → commit last s = s.
Proof.
  intros Hd. unfold commit. rewrite (rerender_same last s) by done.
  by apply rerender_same.
Qed.

Lemma commit_running last s :
  deps s ≠ last → tidy s → isActive s = true → 0 < timeLeft s →
  commit last s = setTimeout (quiet s).
Proof.
  intros Hd Ht Ha Hl. unfold commit. rewrite (rerender_changed last s) by done.
  rewrite effect_running by done. by apply rerender_same.
Qed.

Lemma commit_stopped last s :
  deps s ≠ last → tidy s → isActive s = false → timeLeft s ≠ 0 →
  commit last s = quiet s.
Proof.
  intros Hd Ht Ha Hl. unfold commit. rewrite (rerender_changed last s) by done.
  rewrite effect_stopped by done. by apply rerender_same.
Qed.

Lemma commit_at_zero_stopped last s :
  deps s ≠ last → tidy s → isActive s = false → timeLeft s = 0 →
  commit last s = expire (quiet s).
Proof.
  intros Hd Ht Ha Hl. unfold commit. rewrite (rerender_changed last s) by done.
  rewrite effect_at_zero by done. apply rerender_same.
  unfold deps. simpl. by rewrite Ha.
Qed.

(** Expiry while running: the effect stops the timer, the change of
    [isActive] runs the effect once more, and it is again at zero. *)
Lemma commit_at_zero_running last s :
  deps s ≠ last → tidy s → isActive s = true → timeLeft s = 0 →
  commit last s = expire (expire (quiet s)).
Proof.
  intros Hd Ht Ha Hl. unfold commit. rewrite (rerender_changed last s) by done.
  rewrite effect_at_zero by done.
  rewrite rerender_changed.
  - by rewrite effect_at_zero.
  - unfold deps. simpl. rewrite Ha. congruence.
  - apply expire_tidy, quiet_tidy.
Qed.


(** The second render's effect changes no dependency, so no third render
    follows. *)
Lemma commit_settled last s :
  tidy s → deps (commit last s) = deps (rerender last s).
Proof.
  intros Ht. destruct (decide (deps s = last)) as [Hd|Hd].
  { rewrite commit_same by done. by rewrite rerender_same. }
  rewrite (rerender_changed last s) by done.
  destruct (isActive s) eqn:Ha; destruct (decide (timeLeft s = 0)) as [Hz|Hz].
  - rewrite commit_at_zero_running, effect_at_zero by done. reflexivity.
  - destruct (decide (0 < timeLeft s)) as [Hp|Hn].
    + rewrite commit_running, effect_running by done. reflexivity.
    + unfold commit. rewrite (rerender_changed last s) by done.
      rewrite effect_nothing by (done || (right; simpl; lia)).
      by rewrite rerender_same.
  - rewrite commit_at_zero_stopped, effect_at_zero by done. reflexivity.
  - rewrite commit_stopped, effect_stopped by done. reflexivity.
Qed.

Lemma commit_inv last s :
  tidy s → 0 ≤ timeLeft s → (0 < nextHandle s)%nat → deps s ≠ last →
  inv (commit last s).
Proof.
  intros Ht H0 Hn Hd.
  destruct (isActive s) eqn:Ha; destruct (decide (timeLeft s = 0)) as [Hz|Hz].
  - rewrite commit_at_zero_running by done. unfold inv. simpl.
    repeat split; (done || lia).
  - rewrite commit_running by (done || lia). unfold inv. simpl. rewrite Ha.
    repeat split; try lia. exists (nextHandle s). repeat split; [lia | done..].
  - rewrite commit_at_zero_stopped by done. unfold inv. simpl.
    repeat split; (done || lia).
  - rewrite commit_stopped by done. unfold inv. simpl. rewrite Ha. done.
Qed.

Lemma MODES_time_pos m : 0 < MODES_time m.
Proof. by destruct m. Qed.

Lemma pending_running s h :
  inv s → h ∈ pending s →
  isActive s = true ∧ 0 < timeLeft s ∧ pending s = [h] ∧ timerRef s = Some h
  ∧ h ≠ 0%nat.
Proof.
  intros (_ & Hrun & _) Hh. destruct (isActive s).
  - destruct Hrun as (Hl & h' & Hh' & Hr & Hp). rewrite Hp in Hh.
    apply list_elem_of_singleton in Hh as ->. done.
  - rewrite Hrun in Hh. by apply not_elem_of_nil in Hh.
Qed.

Lemma timeout_fires_spent s h : h ∉ pending s → timeout_fires h s = s.
Proof. intros Hh. unfold timeout_fires. by rewrite bool_decide_false. Qed.

Lemma timeout_fires_pending s h :
  inv s → h ∈ pending s →
  timeout_fires h s
  = mkState (timerMode s) (timeLeft s - 1) true (soundEnabled s)
            (Some h) [] (nextHandle s) (chimes s).
Proof.
  intros Hi Hh. destruct (pending_running s h Hi Hh) as (Ha & _ & Hp & Hr & _).
  unfold timeout_fires. rewrite bool_decide_true by done. rewrite Ha, Hp, Hr.
  rewrite filter_cons. destruct (decide (h ≠ h)); [done |].
  by rewrite filter_nil.
Qed.

Lemma update_tidy e s : inv s → tidy (update e s).
Proof.
  intros Hi. pose proof (inv_tidy s Hi) as Ht. destruct e as [h| | | |]; try done.
  simpl. destruct (decide (h ∈ pending s)) as [Hh|Hh].
  - rewrite timeout_fires_pending by done. by left.
  - by rewrite timeout_fires_spent.
Qed.

Lemma update_nonneg e s : inv s → 0 ≤ timeLeft (update e s).
Proof.
  intros Hi. pose proof Hi as (H0 & _). destruct e as [h|m| | |]; simpl; try done.
  - destruct (decide (h ∈ pending s)) as [Hh|Hh].
    + rewrite timeout_fires_pending by done. simpl.
      destruct (pending_running s h Hi Hh) as (_ & Hl & _). lia.
    + by rewrite timeout_fires_spent.
  - pose proof (MODES_time_pos m). lia.
  - pose proof (MODES_time_pos (timerMode s)). lia.
Qed.

Lemma update_nextHandle e s : nextHandle (update e s) = nextHandle s.
Proof.
  destruct e; simpl; try done. unfold timeout_fires. by destruct (bool_decide _).
Qed.

(** With unchanged dependencies no effect runs, and the update has touched
    neither the ref nor the pending timeouts. *)
Lemma update_same_deps e s :
  inv s → deps (update e s) = deps s → inv (update e s).
Proof.
  intros Hi Hd. destruct e as [h|m| | |]; simpl in *.
  - destruct (decide (h ∈ pending s)) as [Hh|Hh].
    + rewrite timeout_fires_pending in Hd by done. unfold deps in Hd.
      simpl in Hd. injection Hd. lia.
    + by rewrite timeout_fires_spent.
  - unfold deps in Hd. simpl in Hd. injection Hd as Ha Hl.
    destruct Hi as (H0 & Hrun & Hn). rewrite <- Ha in Hrun.
    unfold inv. simpl. repeat split; (done || lia).
  - unfold deps in Hd. simpl in Hd. injection Hd as Ha. by destruct (isActive s).
  - unfold deps in Hd. simpl in Hd. injection Hd as Ha Hl.
    destruct Hi as (H0 & Hrun & Hn). rewrite <- Ha in Hrun.
    unfold inv. simpl. repeat split; (done || lia).
  - done.
Qed.

Lemma handle_inv e s : inv s → inv (handle e s).
Proof.
  intros Hi. unfold handle.
  destruct (decide (deps (update e s) = deps s)) as [Hd|Hd].
  - rewrite commit_same by done. by apply update_same_deps.
  - apply commit_inv; [by apply update_tidy | by apply update_nonneg | | done].
    rewrite update_nextHandle. by destruct Hi as (_ & _ & Hn).
Qed.

Lemma initial_inv sound : inv (initial sound).
Proof. unfold inv, initial. simpl. repeat split; (done || lia). Qed.

Lemma run_inv es s : inv s → inv (run es s).
Proof.
  revert s. induction es as [|e es IH]; intros s Hi; simpl; [done |].
  apply IH. by apply handle_inv.
Qed.

Lemma reachable_inv s : reachable s → inv s.
Proof. intros (sound & es & ->). apply run_inv, initial_inv. Qed.

Lemma reachable_handle e s : reachable s → reachable (handle e s).
Proof.
  intros (sound & es & ->). exists sound, (es ++ [e]).
  unfold run. by rewrite foldl_app.
Qed.

(** ** The timeout callback *)

Lemma handle_spent s h : h ∉ pending s → handle (Timeout h) s = s.
Proof.
  intros Hh. unfold handle. simpl. rewrite timeout_fires_spent by done.
  by apply commit_same.
Qed.

Lemma handle_timeout s h :
  inv s → h ∈ pending s →
  handle (Timeout h) s
  = if decide (timeLeft s = 1)
    then mkState (timerMode s) 0 false (soundEnabled s) (Some h) []
           (nextHandle s)
           (if soundEnabled s then S (S (chimes s)) else chimes s)
    else mkState (timerMode s) (timeLeft s - 1) true (soundEnabled s)
           (Some (nextHandle s)) [nextHandle s] (S (nextHandle s)) (chimes s).
Proof.
  intros Hi Hh. destruct (pending_running s h Hi Hh) as (Ha & Hl & _).
  unfold handle. simpl. rewrite timeout_fires_pending by done.
  destruct (decide (timeLeft s = 1)) as [H1|H1].
  - rewrite commit_at_zero_running; try done.
    + unfold expire, quiet. simpl. rewrite H1. simpl.
      by destruct (soundEnabled s).
    + unfold deps. simpl. rewrite Ha. intros [= Heq]. lia.
    + by left.
    + simpl. lia.
  - rewrite commit_running; try done.
    + unfold deps. simpl. rewrite Ha. intros [= Heq]. lia.
    + by left.
    + simpl. lia.
Qed.

Lemma tick_running s :
  inv s → isActive s = true →
  ∃ h, h ∈ pending s ∧ tick s = handle (Timeout h) s.
Proof.
  intros (_ & Hrun & _) Ha. rewrite Ha in Hrun.
  destruct Hrun as (_ & h & _ & _ & Hp). exists h. unfold tick. rewrite Hp.
  split; [by left | done].
Qed.

Lemma tick_stopped s : pending s = [] → tick s = s.
Proof. intros Hp. unfold tick. by rewrite Hp. Qed.

Lemma ticks_stopped n s : pending s = [] → ticks n s = s.
Proof.
  intros Hp. induction n as [|n IH]; simpl; [done |]. by rewrite tick_stopped.
Qed.

(** A running timer with [n] seconds left is stopped at zero after [n]
    ticks. *)
Lemma ticks_countdown n s :
  inv s → isActive s = true → timeLeft s = Z.of_nat n →
  timeLeft (ticks n s) = 0 ∧ isActive (ticks n s) = false.
Proof.
  revert s. induction n as [|n IH]; intros s Hi Ha Hn.
  - destruct Hi as (_ & Hrun & _). rewrite Ha in Hrun. lia.
  - simpl. destruct (tick_running s Hi Ha) as (h & Hh & ->).
    pose proof (handle_inv (Timeout h) s Hi) as Hi'.
    rewrite handle_timeout in * by done.
    destruct (decide (timeLeft s = 1)) as [H1|H1].
    + assert (n = 0%nat) as -> by lia. simpl. done.
    + apply IH; [done | done |]. simpl. lia.
Qed.

(** ** Switching the mode *)

Lemma cleanup_fields s :
  timerMode (cleanup s) = timerMode s ∧ timeLeft (cleanup s) = timeLeft s
  ∧ isActive (cleanup s) = isActive s.
Proof.
  unfold cleanup. destruct (timerRef s) as [h|]; [| done].
  by destruct (h =? 0)%nat.
Qed.

Lemma handle_switchMode_fields m s :
  timerMode (handle (SwitchMode m) s) = m
  ∧ isActive (handle (SwitchMode m) s) = false
  ∧ timeLeft (handle (SwitchMode m) s) = MODES_time m.
Proof.
  unfold handle, commit.
  change (update (SwitchMode m) s) with (switchMode m s).
  set (s1 := switchMode m s).
  assert (timerMode (rerender (deps s) s1) = m
          ∧ isActive (rerender (deps s) s1) = false
          ∧ timeLeft (rerender (deps s) s1) = MODES_time m) as (Hm & Ha & Hl).
  { unfold rerender. destruct (decide (deps s1 = deps s)); [done |].
    destruct (cleanup_fields s1) as (Hm & Hl & Ha).
    rewrite effect_stopped; [done | by rewrite Ha |].
    rewrite Hl. simpl. pose proof (MODES_time_pos m). lia. }
  rewrite rerender_same; [done |].
  unfold deps at 1. by rewrite Ha, Hl.
Qed.

Lemma handle_switchMode_pending m s :
  inv s → pending (handle (SwitchMode m) s) = [].
Proof.
  intros Hi. unfold handle.
  destruct (decide (deps (update (SwitchMode m) s) = deps s)) as [Hd|Hd].
  - rewrite commit_same by done. simpl. unfold deps in Hd. simpl in Hd.
    injection Hd as Ha Hl. destruct Hi as (_ & Hrun & _).
    by rewrite <- Ha in Hrun.
  - rewrite commit_stopped; [done | done | by apply update_tidy | done |].
    simpl. pose proof (MODES_time_pos m). lia.
Qed.

(** C2: in every reachable state of the timer the remaining time is not
    negative, and at zero the timer is not running.  The timeout callback,
    the only decrement of the remaining time, runs only for a pending
    timeout; one is pending only while the timer is running with time left,
    and its callback takes exactly one second off; a timeout that is not
    pending changes nothing.  When that takes the remaining time from 1 to
    0, the engine stops the timer, leaves no timeout pending, and calls the
    notification exactly when the sound flag is on (the effect runs twice
    then, so it is called twice).  Hence a timer running with 5 seconds left
    is stopped at 0 after 5 ticks. *)
Theorem timer_counts_down (s : State) (Hs : reachable s) :
  0 ≤ timeLeft s
  ∧ (timeLeft s = 0 → isActive s = false)
  ∧ (∀ h, h ∉ pending s → handle (Timeout h) s = s)
  ∧ (∀ h, h ∈ pending s →
       isActive s = true ∧ 0 < timeLeft s
       ∧ timeLeft (handle (Timeout h) s) = timeLeft s - 1)
  ∧ (∀ h, h ∈ pending s → timeLeft s = 1 →
       timeLeft (handle (Timeout h) s) = 0
       ∧ isActive (handle (Timeout h) s) = false
       ∧ pending (handle (Timeout h) s) = []
       ∧ ((chimes s < chimes (handle (Timeout h) s))%nat
          ↔ soundEnabled s = true)
       ∧ chimes (handle (Timeout h) s)
         = (if soundEnabled s then chimes s + 2 else chimes s)%nat)
  ∧ (isActive s = true → timeLeft s = 5 →
     timeLeft (ticks 5 s) = 0 ∧ isActive (ticks 5 s) = false).
Proof.
  pose proof (reachable_inv s Hs) as Hi.
  split; [by destruct Hi |].
  split.
  { intros Hz. destruct Hi as (_ & Hrun & _).
    destruct (isActive s); [lia | done]. }
  split; [apply handle_spent |].
  split.
  { intros h Hh. destruct (pending_running s h Hi Hh) as (Ha & Hl & _).
    rewrite handle_timeout by done.
    destruct (decide (timeLeft s = 1)) as [H1|H1]; simpl; repeat split; lia || done. }
  split.
  { intros h Hh H1. rewrite handle_timeout by done.
    destruct (decide (timeLeft s = 1)); [| done]. simpl.
    destruct (soundEnabled s); repeat split; try (done || lia). }
  intros Ha H5. by apply (ticks_countdown 5).
Qed.

(** C3: from any state [switchMode m] leaves the timer in mode [m], stopped,
    with the duration of [m] as remaining time; the durations are 1500 s for
    focus, 300 s for short and 900 s for long.  From a reachable state it
    also leaves no timeout pending, so no timeout callback, stale or not,
    and no number of ticks changes the state afterwards; in particular a
    focus timer running with 900 s left that is switched to short has 300 s
    left, is stopped, and stays so. *)
Theorem switchMode_stops_and_resets (s : State) (m : Mode) :
  (timerMode (handle (SwitchMode m) s) = m
   ∧ isActive (handle (SwitchMode m) s) = false
   ∧ timeLeft (handle (SwitchMode m) s) = MODES_time m)
  ∧ (MODES_time focus = 1500 ∧ MODES_time short = 300 ∧ MODES_time long = 900)
  ∧ (reachable s →
     pending (handle (SwitchMode m) s) = []
     ∧ (∀ h, handle (Timeout h) (handle (SwitchMode m) s)
             = handle (SwitchMode m) s)
     ∧ (∀ n, ticks n (handle (SwitchMode m) s) = handle (SwitchMode m) s))
  ∧ (reachable s → timerMode s = focus → timeLeft s = 900 →
     isActive s = true →
     ∀ n, timeLeft (ticks n (handle (SwitchMode short) s)) = 300
          ∧ isActive (ticks n (handle (SwitchMode short) s)) = false).
Proof.
  split; [apply handle_switchMode_fields |].
  split; [done |].
  split.
  - intros Hs. pose proof (reachable_inv s Hs) as Hi.
    pose proof (handle_switchMode_pending m s Hi) as Hp.
    split; [done |]. split.
    + intros h. apply handle_spent. rewrite Hp. apply not_elem_of_nil.
    + intros n. by apply ticks_stopped.
  - intros Hs _ _ _ n. pose proof (reachable_inv s Hs) as Hi.
    rewrite ticks_stopped by by apply handle_switchMode_pending.
    by destruct (handle_switchMode_fields short s) as (_ & Ha & Hl).
Qed.

(** The focus timer started and run for 1495 seconds, then to its end. *)
Lemma timer_counts_down_witness :
  let s := ticks 1495 (handle ToggleTimer (initial true)) in
  timeLeft s = 5 ∧ isActive s = true
  ∧ timeLeft (ticks 5 s) = 0 ∧ isActive (ticks 5 s) = false
  ∧ chimes (ticks 5 s) = 2%nat.
Proof.
  intros s.
  assert (reachable s) as Hs.
  { exists true, (ToggleTimer :: (Timeout <$> seq 1 1495)). by vm_compute. }
  destruct (timer_counts_down s Hs) as (_ & _ & _ & _ & _ & H5).
  split; [by vm_compute |]. split; [by vm_compute |].
  destruct H5 as [Hl Ha]; [by vm_compute .. |].
  split; [exact Hl |]. split; [exact Ha | by vm_compute].
Defined.

(** The focus timer started, run for 600 seconds and switched to short. *)
Lemma switchMode_stops_and_resets_witness :
  let s := ticks 600 (handle ToggleTimer (initial true)) in
  timerMode s = focus ∧ timeLeft s = 900 ∧ isActive s = true
  ∧ ∀ n, timeLeft (ticks n (handle (SwitchMode short) s)) = 300
         ∧ isActive (ticks n (handle (SwitchMode short) s)) = false.
Proof.
  intros s.
  assert (reachable s) as Hs.
  { exists true, (ToggleTimer :: (Timeout <$> seq 1 600)). by vm_compute. }
  destruct (switchMode_stops_and_resets s short) as (_ & _ & _ & H).
  split; [by vm_compute |]. split; [by vm_compute |]. split; [by vm_compute |].
  apply H; (done || by vm_compute).
Defined.

End TimerFacts.

(* ===================================================================== *)
(** * More on the timer engine *)
(* ===================================================================== *)

Module TimerMore.
Import Timer TimerFacts.

(** ** What the renders leave alone *)

Lemma effect_keeps s :
  timerMode (effect s) = timerMode s ∧ timeLeft (effect s) = timeLeft s
  ∧ soundEnabled (effect s) = soundEnabled s.
Proof.
  unfold effect. destruct (isActive s && (0 <? timeLeft s)); [done |].
  by destruct (timeLeft s =? 0).
Qed.

Lemma cleanup_keeps s :
  timerMode (cleanup s) = timerMode s ∧ timeLeft (cleanup s) = timeLeft s
  ∧ soundEnabled (cleanup s) = soundEnabled s.
Proof.
  unfold cleanup. destruct (timerRef s) as [h|]; [| done].
  by destruct (h =? 0)%nat.
Qed.

Lemma rerender_keeps last s :
  timerMode (rerender last s) = timerMode s
  ∧ timeLeft (rerender last s) = timeLeft s
  ∧ soundEnabled (rerender last s) = soundEnabled s.
Proof.
  unfold rerender. destruct (decide (deps s = last)); [done |].
  destruct (effect_keeps (cleanup s)) as (-> & -> & ->). apply cleanup_keeps.
Qed.

Lemma commit_keeps last s :
  timerMode (commit last s) = timerMode s
  ∧ timeLeft (commit last s) = timeLeft s
  ∧ soundEnabled (commit last s) = soundEnabled s.
Proof.
  unfold commit.
  destruct (rerender_keeps (deps s) (rerender last s)) as (-> & -> & ->).
  apply rerender_keeps.
Qed.

(** ** The handlers on a state that satisfies the invariant *)

Lemma quiet_id s : pending s = [] → quiet s = s.
Proof. intros Hp. destruct s. simpl in *. by subst. Qed.

Lemma stopped_no_pending s : inv s → isActive s = false → pending s = [].
Proof. intros (_ & Hrun & _) Ha. by rewrite Ha in Hrun. Qed.

(** An update that leaves the timer stopped with time left: the renders
    clear what is pending and do nothing else. *)
Lemma handle_to_stopped e s :
  inv s → isActive (update e s) = false → timeLeft (update e s) ≠ 0 →
  handle e s = quiet (update e s).
Proof.
  intros Hi Ha Hl. unfold handle.
  destruct (decide (deps (update e s) = deps s)) as [Hd|Hd].
  - rewrite commit_same by done. symmetry. apply quiet_id.
    assert (isActive s = false) as Hs
      by (unfold deps in Hd; injection Hd as Hd _; congruence).
    pose proof (stopped_no_pending s Hi Hs) as Hp.
    destruct e as [h| | | |]; simpl; try done.
    rewrite timeout_fires_spent; [done |]. rewrite Hp. apply not_elem_of_nil.
  - apply commit_stopped; [done | by apply update_tidy | done | done].
Qed.

Lemma handle_switchMode_eq m s :
  inv s → handle (SwitchMode m) s = quiet (switchMode m s).
Proof.
  intros Hi. apply handle_to_stopped; [done | done |].
  simpl. pose proof (MODES_time_pos m). lia.
Qed.

Lemma handle_resetTimer_eq s :
  inv s → handle ResetTimer s = quiet (resetTimer s).
Proof.
  intros Hi. apply handle_to_stopped; [done | done |].
  simpl. pose proof (MODES_time_pos (timerMode s)). lia.
Qed.

Lemma handle_pause_eq s :
  inv s → isActive s = true → handle ToggleTimer s = quiet (toggleTimer s).
Proof.
  intros Hi Ha. apply handle_to_stopped; [done | simpl; by rewrite Ha |].
  simpl. destruct Hi as (_ & Hrun & _). rewrite Ha in Hrun. lia.
Qed.

Lemma handle_resume_eq s :
  inv s → isActive s = false → 0 < timeLeft s →
  handle ToggleTimer s = setTimeout (quiet (toggleTimer s)).
Proof.
  intros Hi Ha Hl. unfold handle. apply commit_running.
  - unfold deps. simpl. rewrite Ha. simpl. congruence.
  - by apply (update_tidy ToggleTimer).
  - simpl. by rewrite Ha.
  - done.
Qed.

Lemma handle_start_at_zero_eq s :
  inv s → timeLeft s = 0 →
  handle ToggleTimer s = expire (expire (quiet (toggleTimer s))).
Proof.
  intros Hi Hz. assert (isActive s = false) as Ha.
  { destruct Hi as (_ & Hrun & _). destruct (isActive s); [lia | done]. }
  unfold handle. apply commit_at_zero_running.
  - unfold deps. simpl. rewrite Ha. simpl. congruence.
  - by apply (update_tidy ToggleTimer).
  - simpl. by rewrite Ha.
  - done.
Qed.

Lemma handle_toggleSound_eq s : handle ToggleSound s = toggleSound s.
Proof. unfold handle. by apply commit_same. Qed.

(** ** The remaining time never exceeds the duration of the mode *)

Lemma handle_within e s :
  inv s → timeLeft s ≤ MODES_time (timerMode s) →
  timeLeft (handle e s) ≤ MODES_time (timerMode (handle e s)).
Proof.
  intros Hi Hw. unfold handle.
  destruct (commit_keeps (deps s) (update e s)) as (-> & -> & _).
  destruct e as [h|m| | |]; simpl; try done.
  unfold timeout_fires. destruct (bool_decide _); simpl; [| done].
  lia.
Qed.

Lemma run_within es s :
  inv s → timeLeft s ≤ MODES_time (timerMode s) →
  timeLeft (run es s) ≤ MODES_time (timerMode (run es s)).
Proof.
  revert s. induction es as [|e es IH]; intros s Hi Hw; simpl; [done |].
  apply IH; [by apply handle_inv | by apply handle_within].
Qed.

Lemma reachable_bounds s :
  reachable s → 0 ≤ timeLeft s ≤ MODES_time (timerMode s).
Proof.
  intros Hs. assert (timeLeft s ≤ MODES_time (timerMode s)) as Hw.
  { destruct Hs as (sound & es & ->). apply run_within; [apply initial_inv |].
    simpl. lia. }
  pose proof (reachable_inv s Hs) as (H0 & _). lia.
Qed.

(** X1: in every reachable state of the timer the remaining time lies between
    0 and the duration of the current mode, so it never exceeds 1500
    seconds. *)
Theorem timer_within_duration (s : State) (Hs : reachable s) :
  0 ≤ timeLeft s ≤ MODES_time (timerMode s) ∧ timeLeft s ≤ 1500.
Proof.
  pose proof (reachable_bounds s Hs) as Hb. split; [done |].
  destruct (timerMode s); simpl in Hb; lia.
Qed.


(** X2: in every reachable state a timeout is pending exactly while the timer
    is running; never more than one is pending, and the pending one is the
    one whose handle [timerRef] holds. *)
Theorem pending_iff_running (s : State) (Hs : reachable s) :
  (isActive s = true ↔ pending s ≠ [])
  ∧ (length (pending s) ≤ 1)%nat
  ∧ (∀ h, h ∈ pending s → timerRef s = Some h ∧ pending s = [h]).
Proof.
  pose proof (reachable_inv s Hs) as Hi. split; [| split].
  - destruct Hi as (_ & Hrun & _). destruct (isActive s).
    + destruct Hrun as (_ & h & _ & _ & ->). done.
    + rewrite Hrun. split; [discriminate | done].
  - destruct Hi as (_ & Hrun & _). destruct (isActive s).
    + destruct Hrun as (_ & h & _ & _ & ->). simpl. lia.
    + rewrite Hrun. simpl. lia.
  - intros h Hh. by destruct (pending_running s h Hi Hh) as (_ & _ & Hp & Hr & _).
Qed.

(** X3: from a reachable state [resetTimer] stops the timer, restores the
    full duration of the current mode, keeps the mode and the number of
    chimes, leaves no timeout pending, so that no number of ticks changes
    the state afterwards; resetting twice is resetting once. *)
Theorem resetTimer_stops_and_restores (s : State) (Hs : reachable s) :
  isActive (handle ResetTimer s) = false
  ∧ timeLeft (handle ResetTimer s) = MODES_time (timerMode s)
  ∧ timerMode (handle ResetTimer s) = timerMode s
  ∧ chimes (handle ResetTimer s) = chimes s
  ∧ pending (handle ResetTimer s) = []
  ∧ (∀ n, ticks n (handle ResetTimer s) = handle ResetTimer s)
  ∧ handle ResetTimer (handle ResetTimer s) = handle ResetTimer s.
Proof.
  pose proof (reachable_inv s Hs) as Hi.
  pose proof (handle_inv ResetTimer s Hi) as Hi'.
  rewrite (handle_resetTimer_eq (handle ResetTimer s) Hi').
  rewrite (handle_resetTimer_eq s Hi) in *. simpl.
  repeat split; try done. intros n. by apply ticks_stopped.
Qed.

(** X4: pausing a running timer with [toggleTimer] stops it with the same
    remaining time, mode and chimes and with no timeout pending, so it stays
    as it is whatever the ticks; starting it again keeps the remaining time
    and schedules exactly one timeout, the one [timerRef] holds. *)
Theorem pause_keeps_remaining_time (s : State) (Hs : reachable s)
    (Hrun : isActive s = true) :
  let paused := handle ToggleTimer s in
  let resumed := handle ToggleTimer paused in
  (isActive paused = false ∧ timeLeft paused = timeLeft s
   ∧ timerMode paused = timerMode s ∧ chimes paused = chimes s
   ∧ pending paused = [] ∧ ∀ n, ticks n paused = paused)
  ∧ (isActive resumed = true ∧ timeLeft resumed = timeLeft s
     ∧ timerMode resumed = timerMode s ∧ chimes resumed = chimes s
     ∧ ∃ h, pending resumed = [h] ∧ timerRef resumed = Some h).
Proof.
  intros paused resumed. pose proof (reachable_inv s Hs) as Hi.
  pose proof (handle_inv ToggleTimer s Hi) as Hi'.
  assert (0 < timeLeft s) as Hl
    by (destruct Hi as (_ & Hr & _); rewrite Hrun in Hr; lia).
  assert (paused = quiet (toggleTimer s)) as Hp by by apply handle_pause_eq.
  assert (resumed = setTimeout (quiet (toggleTimer paused))) as Hr.
  { apply handle_resume_eq; [done | |]; rewrite Hp; simpl; [by rewrite Hrun | done]. }
  split.
  - rewrite Hp. simpl. rewrite Hrun. repeat split; try done.
    intros n. by apply ticks_stopped.
  - rewrite Hr, Hp. simpl. rewrite Hrun. repeat split; try done.
    by exists (nextHandle s).
Qed.

(** X5: in a reachable state with no time left the timer is stopped, and
    [toggleTimer] does not start it: the effect stops it again at once with
    the remaining time still 0 and nothing pending, and the notification is
    played twice more when the sound is on, not at all when it is off. *)
Theorem start_at_zero_expires (s : State) (Hs : reachable s)
    (Hzero : timeLeft s = 0) :
  isActive s = false
  ∧ isActive (handle ToggleTimer s) = false
  ∧ timeLeft (handle ToggleTimer s) = 0
  ∧ pending (handle ToggleTimer s) = []
  ∧ chimes (handle ToggleTimer s)
    = (if soundEnabled s then chimes s + 2 else chimes s)%nat.
Proof.
  pose proof (reachable_inv s Hs) as Hi.
  rewrite handle_start_at_zero_eq by done. simpl.
  split.
  { destruct Hi as (_ & Hrun & _). destruct (isActive s); [lia | done]. }
  repeat split; try done. destruct (soundEnabled s); lia.
Qed.

(** The state after [k] ticks of a running timer. *)
Lemma ticks_running k s :
  inv s → isActive s = true →
  timeLeft (ticks k s) = Z.max 0 (timeLeft s - Z.of_nat k)
  ∧ isActive (ticks k s) = bool_decide (Z.of_nat k < timeLeft s)
  ∧ timerMode (ticks k s) = timerMode s
  ∧ chimes (ticks k s)
    = (if soundEnabled s && bool_decide (timeLeft s ≤ Z.of_nat k)%Z
       then chimes s + 2 else chimes s)%nat.
Proof.
  revert s. induction k as [|k IH]; intros s Hi Ha.
  - assert (0 < timeLeft s) as Hl
      by (destruct Hi as (_ & Hr & _); rewrite Ha in Hr; lia).
    simpl. rewrite bool_decide_true by lia. rewrite bool_decide_false by lia.
    rewrite andb_false_r. repeat split; (done || lia).
  - assert (0 < timeLeft s) as Hl
      by (destruct Hi as (_ & Hr & _); rewrite Ha in Hr; lia).
    simpl ticks. destruct (tick_running s Hi Ha) as (h & Hh & ->).
    pose proof (handle_inv (Timeout h) s Hi) as Hi'.
    rewrite handle_timeout in * by done.
    destruct (decide (timeLeft s = 1)) as [H1|H1].
    + rewrite ticks_stopped by done. simpl. rewrite H1.
      rewrite bool_decide_false by lia. rewrite bool_decide_true by lia.
      rewrite andb_true_r. repeat split; try (done || lia).
      destruct (soundEnabled s); lia.
    + destruct (IH _ Hi' eq_refl) as (Ht & Hact & Hm & Hc).
      rewrite Ht, Hact, Hm, Hc. cbn [timeLeft timerMode soundEnabled chimes].
      split; [lia |]. split; [apply bool_decide_ext; lia |].
      split; [done |].
      by rewrite (bool_decide_ext (timeLeft s - 1 ≤ Z.of_nat k)
                    (timeLeft s ≤ Z.of_nat (S k))) by lia.
Qed.

(** X6: after [k] ticks a running timer has [max 0 (timeLeft - k)] seconds
    left and the same mode; it is still running exactly when [k] is less
    than the time it had; and the notification has been played (twice)
    exactly when the sound is on and the time has run out. *)
Theorem countdown (s : State) (Hs : reachable s) (Hrun : isActive s = true)
    (k : nat) :
  timeLeft (ticks k s) = Z.max 0 (timeLeft s - Z.of_nat k)
  ∧ (isActive (ticks k s) = true ↔ Z.of_nat k < timeLeft s)
  ∧ timerMode (ticks k s) = timerMode s
  ∧ chimes (ticks k s)
    = (if soundEnabled s && bool_decide (timeLeft s ≤ Z.of_nat k)%Z
       then chimes s + 2 else chimes s)%nat.
Proof.
  destruct (ticks_running k s (reachable_inv s Hs) Hrun) as (Ht & Ha & Hm & Hc).
  repeat split; try done.
  - rewrite Ha. by intros ?%bool_decide_eq_true.
  - intros Hk. rewrite Ha. by apply bool_decide_eq_true.
Qed.

(** X7: switching the sound on or off changes the sound flag only: the
    remaining time, the running flag, the mode, the pending timeout and its
    handle are untouched, because the timer effect does not depend on the
    flag; switching twice gives the state back. *)
Theorem toggleSound_leaves_timer_alone (s : State) :
  handle ToggleSound s
  = mkState (timerMode s) (timeLeft s) (isActive s) (negb (soundEnabled s))
      (timerRef s) (pending s) (nextHandle s) (chimes s)
  ∧ handle ToggleSound (handle ToggleSound s) = s.
Proof.
  rewrite !handle_toggleSound_eq. unfold toggleSound. simpl.
  split; [done |]. destruct s. simpl. by rewrite negb_involutive.
Qed.

(** ** The timer at work: a focus session *)

Lemma timer_within_duration_witness :
  let s := handle (SwitchMode short)
             (ticks 600 (handle ToggleTimer (initial true))) in
  timeLeft s = 300 ∧ 0 ≤ timeLeft s ≤ MODES_time (timerMode s).
Proof.
  intros s.
  assert (reachable s) as Hs.
  { exists true, (ToggleTimer :: (Timeout <$> seq 1 600) ++ [SwitchMode short]).
    by vm_compute. }
  split; [by vm_compute |]. by destruct (timer_within_duration s Hs).
Defined.

Lemma pending_iff_running_witness :
  let s := ticks 90 (handle ToggleTimer (initial true)) in
  pending s = [91%nat] ∧ timerRef s = Some 91%nat.
Proof.
  intros s.
  assert (reachable s) as Hs.
  { exists true, (ToggleTimer :: (Timeout <$> seq 1 90)). by vm_compute. }
  destruct (pending_iff_running s Hs) as (_ & _ & H).
  assert (pending s = [91%nat]) as E by (vm_compute; reflexivity).
  assert (91%nat ∈ pending s) as Hin
    by (eapply eq_ind_r; [apply list_elem_of_here | exact E]).
  destruct (H 91%nat Hin) as [Hr Hp]. split; [exact Hp | exact Hr].
Defined.

Lemma resetTimer_stops_and_restores_witness :
  let s := ticks 90 (handle ToggleTimer (initial true)) in
  timeLeft s = 1410 ∧ isActive s = true
  ∧ timeLeft (handle ResetTimer s) = 1500
  ∧ isActive (handle ResetTimer s) = false.
Proof.
  intros s.
  assert (reachable s) as Hs.
  { exists true, (ToggleTimer :: (Timeout <$> seq 1 90)). by vm_compute. }
  destruct (resetTimer_stops_and_restores s Hs) as (Ha & Ht & Hm & _).
  split; [by vm_compute |]. split; [by vm_compute |].
  split; [| exact Ha]. rewrite Ht. by vm_compute.
Defined.

Lemma pause_keeps_remaining_time_witness :
  let s := ticks 90 (handle ToggleTimer (initial true)) in
  timeLeft (handle ToggleTimer s) = 1410
  ∧ isActive (handle ToggleTimer s) = false
  ∧ timeLeft (handle ToggleTimer (handle ToggleTimer s)) = 1410
  ∧ isActive (handle ToggleTimer (handle ToggleTimer s)) = true.
Proof.
  intros s.
  assert (reachable s) as Hs.
  { exists true, (ToggleTimer :: (Timeout <$> seq 1 90)). by vm_compute. }
  destruct (pause_keeps_remaining_time s Hs) as [Hp Hr]; [by vm_compute |].
  destruct Hp as (Ha & Ht & _). destruct Hr as (Ha' & Ht' & _).
  split; [rewrite Ht; by vm_compute |]. split; [exact Ha |].
  split; [rewrite Ht'; by vm_compute | exact Ha'].
Defined.

Lemma start_at_zero_expires_witness :
  let s := ticks 300 (handle ToggleTimer (handle (SwitchMode short) (initial true))) in
  timeLeft s = 0 ∧ chimes s = 2%nat
  ∧ isActive (handle ToggleTimer s) = false
  ∧ chimes (handle ToggleTimer s) = 4%nat.
Proof.
  intros s.
  assert (reachable s) as Hs.
  { exists true, (SwitchMode short :: ToggleTimer :: (Timeout <$> seq 1 300)).
    by vm_compute. }
  destruct (start_at_zero_expires s Hs) as (_ & Ha & _ & _ & Hc); [by vm_compute |].
  split; [by vm_compute |]. split; [by vm_compute |].
  split; [exact Ha |]. rewrite Hc. by vm_compute.
Defined.

Lemma countdown_witness :
  let s := handle ToggleTimer (initial true) in
  timeLeft (ticks 1500 s) = 0 ∧ chimes (ticks 1500 s) = 2%nat
  ∧ timeLeft (ticks 1499 s) = 1 ∧ chimes (ticks 1499 s) = 0%nat.
Proof.
  intros s.
  assert (reachable s) as Hs by (exists true, [ToggleTimer]; by vm_compute).
  destruct (countdown s Hs eq_refl 1500) as (Ht & _ & _ & Hc).
  destruct (countdown s Hs eq_refl 1499) as (Ht' & _ & _ & Hc').
  split; [rewrite Ht; by vm_compute |]. split; [rewrite Hc; by vm_compute |].
  split; [rewrite Ht'; by vm_compute | rewrite Hc'; by vm_compute].
Defined.

End TimerMore.

(* ===================================================================== *)
(** * The time display *)
(* ===================================================================== *)

Module DisplayFacts.
Import Display Timer TimerFacts.

Lemma padStart2_small_nat (n : nat) :
  (n < 100)%nat →
  padStart2 (toString (Z.of_nat n))
  = [digit (Z.of_nat n / 10); digit (Z.of_nat n mod 10)].
Proof.
  intros Hn.
  assert (forallb (λ n, bool_decide
            (padStart2 (toString (Z.of_nat n))
             = [digit (Z.of_nat n / 10); digit (Z.of_nat n mod 10)]))
            (seq 0 100) = true) as Hall by by vm_compute.
  rewrite forallb_forall in Hall. specialize (Hall n).
  eapply bool_decide_eq_true_1. apply Hall. apply in_seq. lia.
Qed.

Lemma padStart2_small (n : Z) :
  0 ≤ n < 100 → padStart2 (toString n) = [digit (n / 10); digit (n mod 10)].
Proof.
  intros Hn. rewrite <- (Z2Nat.id n) by lia. apply padStart2_small_nat. lia.
Qed.

Lemma formatTime_small (s : Z) :
  0 ≤ s < 6000 →
  formatTime s
  = [digit (s / 600); digit (s / 60 mod 10); 58%N;
     digit (s mod 60 / 10); digit (s mod 10)].
Proof.
  intros Hs. unfold formatTime. rewrite Z.rem_mod_nonneg by lia.
  assert (0 ≤ s / 60 < 100) as Hm by (Z.div_mod_to_equations; lia).
  assert (0 ≤ s mod 60 < 100) as Hr by (Z.div_mod_to_equations; lia).
  rewrite (padStart2_small (s / 60) Hm), (padStart2_small (s mod 60) Hr).
  assert (s / 60 / 10 = s / 600) as -> by (Z.div_mod_to_equations; lia).
  assert (s mod 60 mod 10 = s mod 10) as -> by (Z.div_mod_to_equations; lia).
  reflexivity.
Qed.

Lemma digit_inj a b : 0 ≤ a → 0 ≤ b → digit a = digit b → a = b.
Proof. unfold digit. intros Ha Hb Heq. apply Z2N.inj in Heq; lia. Qed.

(** X8: for less than 100 minutes, [formatTime] gives five code units: the
    two digits of the minutes, a colon, the two digits of the seconds. *)
Theorem formatTime_minutes_seconds (s : Z) (Hs : 0 ≤ s < 6000) :
  formatTime s
  = [digit (s / 600); digit (s / 60 mod 10); 58%N;
     digit (s mod 60 / 10); digit (s mod 10)]
  ∧ length (formatTime s) = 5%nat.
Proof. rewrite formatTime_small by done. done. Qed.

(** X9: for less than 100 minutes, different remaining times are displayed
    differently. *)
Theorem formatTime_injective (a b : Z) (Ha : 0 ≤ a < 6000) (Hb : 0 ≤ b < 6000)
    (Hne : a ≠ b) :
  formatTime a ≠ formatTime b.
Proof.
  intros Heq. apply Hne. rewrite !formatTime_small in Heq by done.
  injection Heq as H1 H2 H3 H4.
  apply digit_inj in H1; [| Z.div_mod_to_equations; lia ..].
  apply digit_inj in H2; [| Z.div_mod_to_equations; lia ..].
  apply digit_inj in H3; [| Z.div_mod_to_equations; lia ..].
  apply digit_inj in H4; [| Z.div_mod_to_equations; lia ..].
  Z.div_mod_to_equations. lia.
Qed.

(** X10: in every reachable state the document title is the two-digit
    minutes, a colon, the two-digit seconds and [ - ZenFocus], 16 code units
    in all, and the minutes shown are at most 25. *)
Theorem title_shows_minutes_and_seconds (s : State) (Hs : reachable s) :
  documentTitle s
  = [digit (timeLeft s / 600); digit (timeLeft s / 60 mod 10); 58%N;
     digit (timeLeft s mod 60 / 10); digit (timeLeft s mod 10)]
    ++ js " - ZenFocus"
  ∧ length (documentTitle s) = 16%nat
  ∧ timeLeft s / 60 ≤ 25.
Proof.
  pose proof (TimerMore.reachable_bounds s Hs) as Hb.
  assert (timeLeft s ≤ 1500) as Hmax by (destruct (timerMode s); simpl in Hb; lia).
  unfold documentTitle. rewrite formatTime_small by lia.
  split; [reflexivity |]. split; [by rewrite length_app |].
  Z.div_mod_to_equations. lia.
Qed.

Lemma formatTime_minutes_seconds_witness : formatTime 1500 = js "25:00".
Proof.
  destruct (formatTime_minutes_seconds 1500) as [H _]; [lia |].
  rewrite H. reflexivity.
Defined.

Lemma formatTime_injective_witness : formatTime 59 ≠ formatTime 60.
Proof. apply formatTime_injective; lia. Defined.

Lemma title_shows_minutes_and_seconds_witness :
  documentTitle (ticks 90 (handle ToggleTimer (initial true)))
  = js "23:30 - ZenFocus".
Proof.
  destruct (title_shows_minutes_and_seconds
              (ticks 90 (handle ToggleTimer (initial true)))) as [H _].
  - exists true, (ToggleTimer :: (Timeout <$> seq 1 90)). by vm_compute.
  - rewrite H. by vm_compute.
Defined.

End DisplayFacts.

(* ===================================================================== *)
(** * More on the task repository *)
(* ===================================================================== *)

Section TaskMore.
Context {number : Type} `{EqDecision number}.
Implicit Types (t : Task number) (ts : list (Task number)).

Lemma fmap_tasks_twice (f : Task number → Task number) ts :
  (∀ t, f (f t) = t) → f <$> (f <$> ts) = ts.
Proof.
  intros Hf. rewrite <- list_fmap_compose.
  rewrite <- (list_fmap_id ts) at 2. apply list_fmap_ext. intros _ t _. apply Hf.
Qed.

(** X11: toggling the same task twice gives the collection back. *)
Theorem toggleTask_twice (id : number) ts :
  toggleTask id (toggleTask id ts) = ts.
Proof.
  apply fmap_tasks_twice. intros [i x c subs e]. simpl.
  destruct (decide (i = id)) as [->|Hne]; simpl.
  - rewrite decide_True by done. by rewrite negb_involutive.
  - by rewrite decide_False.
Qed.

Lemma flipSubtask_twice (subtaskId : number) (st : SubTask number) :
  flipSubtask subtaskId (flipSubtask subtaskId st) = st.
Proof.
  destruct st as [i x c]. unfold flipSubtask. simpl.
  destruct (decide (i = subtaskId)) as [->|Hne]; simpl.
  - rewrite decide_True by done. by rewrite negb_involutive.
  - by rewrite decide_False.
Qed.

(** X12: toggling the same subtask of the same task twice gives the
    collection back. *)
Theorem toggleSubtask_twice (taskId subtaskId : number) ts :
  toggleSubtask taskId subtaskId (toggleSubtask taskId subtaskId ts) = ts.
Proof.
  apply fmap_tasks_twice. intros [i x c subs e]. simpl.
  destruct (decide (i ≠ taskId)) as [Hne|Heq]; simpl.
  - by rewrite decide_True.
  - rewrite decide_False by done. f_equal.
    destruct subs as [subs|]; simpl; [| done]. f_equal.
    rewrite <- list_fmap_compose. rewrite <- (list_fmap_id subs) at 2.
    apply list_fmap_ext. intros _ st _. apply flipSubtask_twice.
Qed.

(** X13: expanding and collapsing: [toggleExpand] twice gives the collection
    back when every task with the identifier has its [isExpanded] flag; a
    task without the flag is expanded by the first call and collapsed by the
    second, so it ends with the flag set to false. *)
Theorem toggleExpand_twice (id : number) ts :
  ((∀ t, t ∈ ts → task_id t = id → is_Some (task_isExpanded t)) →
   toggleExpand id (toggleExpand id ts) = ts)
  ∧ (∀ i t, ts !! i = Some t → task_id t = id → task_isExpanded t = None →
       ∃ t1 t2, toggleExpand id ts !! i = Some t1
                ∧ task_isExpanded t1 = Some true
                ∧ toggleExpand id (toggleExpand id ts) !! i = Some t2
                ∧ task_isExpanded t2 = Some false).
Proof.
  split.
  - intros Hdef. unfold toggleExpand. rewrite <- list_fmap_compose.
    apply fmap_tasks_id. intros t Ht. simpl.
    destruct (decide (task_id t = id)) as [Heq|Hne]; simpl.
    + rewrite decide_True by done. destruct (Hdef t Ht Heq) as [b Hb].
      destruct t as [i x c subs e]. simpl in *. subst e. simpl.
      by rewrite negb_involutive.
    + by rewrite decide_False.
  - intros i t Hi Hid He. unfold toggleExpand.
    rewrite !list_lookup_fmap, Hi. simpl.
    rewrite decide_True by done. simpl. rewrite decide_True by done.
    eexists _, _. split; [done |]. simpl. rewrite He. done.
Qed.


(** ** Removing *)

(** X14: [deleteTask] keeps exactly the tasks whose identifier differs from
    the given one, in their order; deleting again changes nothing; deleting
    an identifier that no task has changes nothing; and the number of tasks
    kept and of tasks with the identifier add up to the number there was. *)
Theorem deleteTask_removes_exactly (id : number) ts :
  (∀ t, t ∈ deleteTask id ts ↔ t ∈ ts ∧ task_id t ≠ id)
  ∧ deleteTask id ts `sublist_of` ts
  ∧ deleteTask id (deleteTask id ts) = deleteTask id ts
  ∧ (id ∉ task_ids ts → deleteTask id ts = ts)
  ∧ (length (deleteTask id ts)
     + length (filter (λ t, task_id t = id) ts) = length ts)%nat.
Proof.
  unfold deleteTask. split; [| split; [| split; [| split]]].
  - intros t. rewrite list_elem_of_filter. tauto.
  - apply sublist_filter.
  - induction ts as [|t ts IH]; [done |]. rewrite filter_cons.
    destruct (decide (task_id t ≠ id)) as [Hne|Heq]; [| done].
    rewrite filter_cons, decide_True by done. by rewrite IH.
  - intros Hid. induction ts as [|t ts IH]; [done |].
    unfold task_ids in Hid. simpl in Hid. rewrite not_elem_of_cons in Hid.
    destruct Hid as [Hne Hid]. rewrite filter_cons, decide_True by done.
    by rewrite IH.
  - induction ts as [|t ts IH]; [done |]. rewrite !filter_cons.
    destruct (decide (task_id t ≠ id)) as [Hne|Heq].
    + rewrite decide_False by done. simpl. lia.
    + apply dec_stable in Heq. rewrite decide_True by done. simpl. lia.
Qed.

(** ** Operations on different tasks do not interfere *)

Lemma filter_fmap_tasks (f : Task number → Task number) (id : number) ts :
  (∀ t, task_id (f t) = task_id t) →
  filter (λ t, task_id t ≠ id) (f <$> ts)
  = f <$> filter (λ t, task_id t ≠ id) ts.
Proof.
  intros Hf. induction ts as [|t ts IH]; [done |].
  rewrite fmap_cons, !filter_cons, Hf.
  destruct (decide (task_id t ≠ id)); rewrite ?fmap_cons; by rewrite IH.
Qed.

(** X15: toggling, deleting, expanding and toggling a subtask commute: two
    of these operations applied to a collection give the same collection in
    either order, whatever the identifiers. *)
Theorem operations_commute (a b subtaskId : number) ts :
  toggleTask a (toggleTask b ts) = toggleTask b (toggleTask a ts)
  ∧ deleteTask a (toggleTask b ts) = toggleTask b (deleteTask a ts)
  ∧ deleteTask a (toggleSubtask b subtaskId ts)
    = toggleSubtask b subtaskId (deleteTask a ts)
  ∧ deleteTask a (toggleExpand b ts) = toggleExpand b (deleteTask a ts)
  ∧ deleteTask a (deleteTask b ts) = deleteTask b (deleteTask a ts)
  ∧ toggleTask a (toggleSubtask b subtaskId ts)
    = toggleSubtask b subtaskId (toggleTask a ts)
  ∧ toggleTask a (toggleExpand b ts) = toggleExpand b (toggleTask a ts).
Proof.
  split; [| split; [| split; [| split; [| split; [| split]]]]].
  - unfold toggleTask. rewrite <- !list_fmap_compose. apply list_fmap_ext.
    intros _ [i x c subs e] _. simpl.
    repeat (case_decide; simpl in * ); done.
  - apply filter_fmap_tasks. intros t. by destruct (decide _).
  - apply filter_fmap_tasks. intros t. by destruct (decide _).
  - apply filter_fmap_tasks. intros t. by destruct (decide _).
  - unfold deleteTask. induction ts as [|t ts IH]; [done |].
    rewrite !filter_cons.
    repeat case_decide; rewrite ?filter_cons; repeat case_decide;
      try done; by rewrite IH.
  - unfold toggleTask, toggleSubtask. rewrite <- !list_fmap_compose.
    apply list_fmap_ext. intros _ [i x c subs e] _. simpl.
    repeat (case_decide; simpl in * ); done.
  - unfold toggleTask, toggleExpand. rewrite <- !list_fmap_compose.
    apply list_fmap_ext. intros _ [i x c subs e] _. simpl.
    repeat (case_decide; simpl in * ); done.
Qed.

(** ** Subtasks accumulate *)

(** X16: attaching generated subtasks twice is attaching their
    concatenation: the earlier ones stay, in front; and attaching changes
    neither the [completed] flags nor the identifiers of the tasks. *)
Theorem attachSubtasks_accumulate (taskId : number)
    (first second : list (SubTask number)) ts :
  attachSubtasks taskId second (attachSubtasks taskId first ts)
  = attachSubtasks taskId (first ++ second) ts
  ∧ task_completed <$> attachSubtasks taskId first ts = task_completed <$> ts
  ∧ task_ids (attachSubtasks taskId first ts) = task_ids ts.
Proof.
  unfold attachSubtasks, task_ids. split; [| split].
  - rewrite <- list_fmap_compose. apply list_fmap_ext. intros _ t _. simpl.
    destruct (decide (task_id t = taskId)); simpl.
    + rewrite decide_True by done. by rewrite app_assoc.
    + by rewrite decide_False.
  - rewrite <- list_fmap_compose. apply list_fmap_ext. intros _ t _. simpl.
    by destruct (decide _).
  - rewrite <- list_fmap_compose. apply list_fmap_ext. intros _ t _. simpl.
    by destruct (decide _).
Qed.


(** ** The active task *)

Lemma activeTask_cons t ts :
  activeTask (t :: ts) = if task_completed t then activeTask ts else Some t.
Proof. unfold activeTask. simpl. by destruct (task_completed t). Qed.

Lemma activeTask_app_done (l r : list (Task number)) :
  Forall finished l → activeTask (l ++ r) = activeTask r.
Proof.
  induction 1 as [|t l Ht Hl IH]; [done |]. rewrite <- app_comm_cons.
  rewrite activeTask_cons. unfold finished in Ht. by rewrite Ht.
Qed.

Lemma activeTask_None ts : activeTask ts = None ↔ Forall finished ts.
Proof.
  induction ts as [|t ts IH]; [by split; [constructor |] |].
  rewrite activeTask_cons. destruct (task_completed t) eqn:Hc.
  - rewrite IH. split; [by constructor | by inversion 1].
  - split; [done |]. inversion 1 as [|? ? Hd]. unfold finished in Hd. congruence.
Qed.

Lemma activeTask_Some ts t :
  activeTask ts = Some t
  ↔ ∃ l1 l2, ts = l1 ++ t :: l2 ∧ Forall finished l1 ∧ task_completed t = false.
Proof.
  split.
  - induction ts as [|t0 ts IH]; [done |]. rewrite activeTask_cons.
    destruct (task_completed t0) eqn:Hc.
    + intros (l1 & l2 & -> & Hl & Ht)%IH. exists (t0 :: l1), l2.
      split; [done |]. split; [by constructor | done].
    + intros [= ->]. exists [], ts. split; [done |]. split; [constructor | done].
  - intros (l1 & l2 & -> & Hl & Ht). rewrite activeTask_app_done by done.
    rewrite activeTask_cons. by rewrite Ht.
Qed.

(** X17: there is no active task exactly when every task is completed;
    otherwise the active task is the incomplete task before which every
    task is completed. *)
Theorem activeTask_is_first_incomplete ts :
  (activeTask ts = None ↔ Forall (λ t, task_completed t = true) ts)
  ∧ (∀ t, activeTask ts = Some t
          ↔ ∃ l1 l2, ts = l1 ++ t :: l2
                     ∧ Forall (λ t, task_completed t = true) l1
                     ∧ task_completed t = false).
Proof. split; [apply activeTask_None | apply activeTask_Some]. Qed.

(** X18: adding a task never replaces the active task: it stays the active
    one; when there was none, the added task becomes active, and a blank
    text, which adds nothing, leaves none. *)
Theorem activeTask_after_add (now : number) (text : jsstring) ts :
  activeTask (addTask now text ts).1
  = match activeTask ts with
    | Some t => Some t
    | None => if str_truthy (trim text)
              then Some (mkTask now text false (Some []) (Some false))
              else None
    end.
Proof.
  unfold addTask. destruct (str_truthy (trim text)); simpl.
  - destruct (activeTask ts) as [t|] eqn:Ha.
    + apply activeTask_Some in Ha as (l1 & l2 & -> & Hl & Ht).
      rewrite <- app_assoc. simpl. apply activeTask_Some.
      exists l1, (l2 ++ [mkTask now text false (Some []) (Some false)]). done.
    + apply activeTask_None in Ha. rewrite activeTask_app_done by done. done.
  - by destruct (activeTask ts).
Qed.

(** With unique ids, toggling the task with the id of [t] changes [t] only. *)
Lemma toggleTask_split l1 t l2 :
  NoDup (task_ids (l1 ++ t :: l2)) →
  toggleTask (task_id t) (l1 ++ t :: l2)
  = l1 ++ mkTask (task_id t) (task_text t) (negb (task_completed t))
            (task_subtasks t) (task_isExpanded t) :: l2.
Proof.
  intros Hnd. unfold task_ids in Hnd. rewrite fmap_app, fmap_cons in Hnd.
  apply NoDup_app in Hnd as (_ & Hl1 & Hnd).
  apply NoDup_cons in Hnd as [Hl2 _].
  unfold toggleTask. rewrite fmap_app, fmap_cons.
  rewrite decide_True by done. f_equal; [| f_equal].
  - apply fmap_tasks_id. intros t' Ht'. rewrite decide_False; [done |].
    intros Heq. apply (Hl1 (task_id t')).
    + by apply list_elem_of_fmap_2.
    + rewrite Heq. by left.
  - apply fmap_tasks_id. intros t' Ht'. rewrite decide_False; [done |].
    intros Heq. apply Hl2. rewrite <- Heq. by apply list_elem_of_fmap_2.
Qed.

(** X19: with unique identifiers, when the tasks before [t] are completed
    and [t] is not, [t] is the active task, and completing it makes the
    active task the first incomplete one after it (none when there is
    none). *)
Theorem completing_active_task_activates_next l1 t l2
    (Huniq : NoDup (task_ids (l1 ++ t :: l2)))
    (Hdone : Forall (λ t', task_completed t' = true) l1)
    (Hopen : task_completed t = false) :
  activeTask (l1 ++ t :: l2) = Some t
  ∧ activeTask (toggleTask (task_id t) (l1 ++ t :: l2)) = activeTask l2.
Proof.
  split.
  - apply activeTask_Some. by exists l1, l2.
  - rewrite toggleTask_split by done.
    rewrite activeTask_app_done by done. rewrite activeTask_cons. simpl.
    by rewrite Hopen.
Qed.

(** ** The done counter *)

Lemma doneCount_app (l r : list (Task number)) : doneCount (l ++ r) = (doneCount l + doneCount r)%nat.
Proof. unfold doneCount. by rewrite filter_app, length_app. Qed.

Lemma doneCount_cons (t : Task number) ts :
  doneCount (t :: ts)
  = ((if task_completed t then 1 else 0) + doneCount ts)%nat.
Proof.
  unfold doneCount. rewrite filter_cons.
  case_decide as Hc; simpl in Hc; destruct (task_completed t); done.
Qed.

(** X20: the counter of completed tasks shown in the header is at most the
    number of tasks and equals it exactly when there is no active task;
    adding a task leaves it unchanged; with unique identifiers, toggling a
    task that is in the collection takes one off when the task was completed
    and adds one when it was not. *)
Theorem doneCount_follows_toggles (now : number) (text : jsstring) ts :
  (doneCount ts ≤ length ts)%nat
  ∧ (doneCount ts = length ts ↔ activeTask ts = None)
  ∧ doneCount (addTask now text ts).1 = doneCount ts
  ∧ (∀ t, NoDup (task_ids ts) → t ∈ ts →
       doneCount (toggleTask (task_id t) ts)
       = if task_completed t then pred (doneCount ts) else S (doneCount ts)).
Proof.
  split; [| split; [| split]].
  - unfold doneCount. apply length_filter.
  - rewrite activeTask_None. induction ts as [|t ts IH]; [by split; [constructor |] |].
    rewrite doneCount_cons. simpl.
    assert (doneCount ts ≤ length ts)%nat by apply length_filter.
    destruct (task_completed t) eqn:Hc.
    + split.
      * intros Heq. constructor; [done |]. apply IH. lia.
      * inversion 1 as [|? ? _ Hts]. apply IH in Hts. lia.
    + split; [lia |]. inversion 1 as [|? ? Hd]. congruence.
  - unfold addTask. destruct (str_truthy (trim text)); simpl; [| done].
    rewrite doneCount_app, doneCount_cons. simpl.
    replace (doneCount (@nil (Task number))) with 0%nat by done. lia.
  - intros t Hnd Ht. apply list_elem_of_split in Ht as (l1 & l2 & ->).
    rewrite toggleTask_split by done.
    rewrite !doneCount_app, !doneCount_cons. simpl.
    destruct (task_completed t); simpl; lia.
Qed.

(** ** The next step shown in the overlay *)

(** X21: when the active task has no incomplete subtask, the overlay shows
    no next step; after the generated steps are attached to it, the next
    step shown is the first generated one. *)
Theorem breakdown_of_active_task_gives_next_step ts t (stamp : nat → number)
    (step : json) (steps : list json)
    (Hactive : activeTask ts = Some t)
    (Hdone : Forall (λ st, sub_completed st = true)
               (default [] (task_subtasks t))) :
  nextStep ts = None
  ∧ nextStep (attachSubtasks (task_id t) (newSubtasks stamp (step :: steps)) ts)
    = Some step.
Proof.
  assert (∀ subs : list (SubTask number),
            Forall (λ st, sub_completed st = true) subs →
            ∀ r, List.find (λ st, negb (sub_completed st)) (subs ++ r)
                 = List.find (λ st, negb (sub_completed st)) r) as Hfind.
  { induction 1 as [|st subs Hst _ IH]; intros r; [done |].
    simpl. rewrite Hst. simpl. apply IH. }
  split.
  - unfold nextStep. rewrite Hactive. simpl.
    destruct (task_subtasks t) as [subs|]; simpl in *; [| done].
    specialize (Hfind subs Hdone []). rewrite app_nil_r in Hfind.
    by rewrite Hfind.
  - apply activeTask_Some in Hactive as (l1 & l2 & -> & Hl & Ht).
    unfold nextStep, attachSubtasks. rewrite fmap_app, fmap_cons.
    rewrite decide_True by done. rewrite activeTask_app_done.
    + rewrite activeTask_cons. simpl. rewrite Ht. simpl.
      by rewrite Hfind.
    + apply Forall_fmap. eapply Forall_impl; [exact Hl |].
      intros t' Ht'. unfold finished in *. simpl. by destruct (decide _).
Qed.

End TaskMore.

Section TaskMoreExamples.
Import Sample.

Lemma completing_active_task_activates_next_witness :
  let invoice := mkTask 1700000003000 (js "Send invoice") false (Some []) (Some false) in
  activeTask [report; invoice] = Some report
  ∧ activeTask (toggleTask 1700000000000 [report; invoice]) = Some invoice.
Proof.
  intros invoice.
  destruct (completing_active_task_activates_next [] report [invoice])
    as [H1 H2].
  - apply (bool_decide_unpack (NoDup (task_ids ([] ++ [report; invoice])))).
    by vm_compute.
  - constructor.
  - reflexivity.
  - split; [exact H1 | exact H2].
Defined.

Lemma breakdown_of_active_task_gives_next_step_witness :
  nextStep [report] = None
  ∧ nextStep (attachSubtasks 1700000000000
                (newSubtasks stamp [JString (js "Open the document");
                                    JString (js "Write outline")])
                [report])
    = Some (JString (js "Open the document")).
Proof.
  apply (breakdown_of_active_task_gives_next_step [report] report stamp).
  - reflexivity.
  - constructor.
Defined.

End TaskMoreExamples.

(* ===================================================================== *)
(** * More on the AI advisory client *)
(* ===================================================================== *)

(** ** Markdown fences around a reply *)

Section FenceFacts.

Lemma strip_prefix_app p s : strip_prefix p (p ++ s) = Some s.
Proof.
  induction p as [|c p IH]; [by destruct s |]. simpl.
  by rewrite N.eqb_refl.
Qed.

Lemma remove_all_from_skip l pat s :
  remove_all_from (length l) pat (l ++ s) = remove_all_from O pat s.
Proof. induction l as [|c l IH]; [done |]. simpl. exact IH. Qed.

Lemma remove_all_prefix c pat s :
  remove_all (c :: pat) ((c :: pat) ++ s) = remove_all (c :: pat) s.
Proof.
  unfold remove_all. rewrite <- app_comm_cons.
  cbn [remove_all_from]. rewrite app_comm_cons, strip_prefix_app.
  cbn [length pred]. apply remove_all_from_skip.
Qed.

Lemma remove_all_absent c pat body rest :
  c ∉ body →
  remove_all (c :: pat) (body ++ rest) = body ++ remove_all (c :: pat) rest.
Proof.
  unfold remove_all. induction body as [|b body IH]; intros Hc; [done |].
  apply not_elem_of_cons in Hc as [Hne Hc]. rewrite <- app_comm_cons.
  cbn [remove_all_from strip_prefix].
  destruct (N.eqb_spec c b) as [->|_]; [done |]. by rewrite IH.
Qed.

(** X22: for a reply body without backquotes, the clean-up of the breakdown
    handler turns the body wrapped in a Markdown [json] fence, the body
    followed by a closing fence, and the bare body into the same text: the
    body trimmed. *)
Theorem fenced_reply_is_unwrapped (body : jsstring) (Hbody : 96%N ∉ body) :
  strip_fences (js "```json" ++ body ++ js "```") = trim body
  ∧ strip_fences (body ++ js "```") = trim body
  ∧ strip_fences body = trim body.
Proof.
  assert (remove_all (js "```") (remove_all (js "```json") (body ++ js "```"))
          = body) as Hrest.
  { change (js "```json") with (96%N :: js "``json").
    rewrite remove_all_absent by done.
    change (remove_all (96%N :: js "``json") (js "```")) with (js "```").
    change (js "```") with (96%N :: js "``") at 1.
    rewrite remove_all_absent by done.
    change (remove_all (96%N :: js "``") (js "```")) with (@nil N).
    apply app_nil_r. }
  unfold strip_fences. split; [| split].
  - change (js "```json") with (96%N :: js "``json") at 1 2.
    rewrite remove_all_prefix.
    change (96%N :: js "``json") with (js "```json"). by rewrite Hrest.
  - by rewrite Hrest.
  - rewrite <- (app_nil_r body) at 1.
    change (js "```json") with (96%N :: js "``json").
    rewrite remove_all_absent by done.
    change (remove_all (96%N :: js "``json") []) with (@nil N).
    change (js "```") with (96%N :: js "``").
    rewrite remove_all_absent by done.
    change (remove_all (96%N :: js "``") []) with (@nil N).
    by rewrite !app_nil_r.
Qed.

Lemma fenced_reply_is_unwrapped_witness :
  strip_fences (js "```json" ++ jsq " ['Open the document'] " ++ js "```")
  = jsq "['Open the document']".
Proof.
  destruct (fenced_reply_is_unwrapped (jsq " ['Open the document'] ")) as [H _].
  - apply (bool_decide_unpack (96%N ∉ jsq " ['Open the document'] ")).
    by vm_compute.
  - rewrite H. by vm_compute.
Defined.

End FenceFacts.

(** ** The outcomes of the client and of its two callers *)

Section ClientMore.
Context {number : Type} `{EqDecision number}.
Variable fetch : jsstring → fetch_outcome.
Variable stringify : list (Task number) → jsstring.
Implicit Types (a : App number) (captured : list (Task number)).

(** X23: the client always completes.  It returns null exactly when the
    request is rejected, the response is not a success, or its body is not
    JSON or is the JSON null; every null comes with the console error and
    the alert, and every other result, a truthy value or the empty string,
    comes with no output at all. *)
Theorem callGemini_outcomes (prompt : jsstring) :
  ∃ r out, call_returns fetch prompt r out
    ∧ (r = None
       ↔ fetch prompt = Rejected
         ∨ ∃ ok body, fetch prompt = Responded ok body
             ∧ (ok = false ∨ Json.parse body = None
                ∨ Json.parse body = Some JNull))
    ∧ match r with
      | None => ∃ e, out = ai_error e
      | Some v => out = [] ∧ (truthy v = true ∨ v = JString [])
      end.
Proof. apply call_outcome. Qed.

(** X24: whatever the service does, the breakdown handler completes
    normally, ends with no task marked as loading, and leaves the coach tip
    and the coach loading flag alone.  Either the tasks of the state and the
    storage are unchanged, or the tasks are the captured ones with the
    subtasks generated from a parsed array attached and no alert is shown:
    then either nothing is printed and the storage holds the serialised new
    collection under [zenfocus-tasks], or the write failed, its error is the
    one line printed, with [console.error], and the storage is as it was. *)
Theorem breakdown_frame captured (stamp : nat → number) (taskId : number)
    (taskText : jsstring) a :
  ∃ a' o,
    handleSmartBreakdown fetch stringify captured stamp taskId taskText a
    = (Returns tt, a', o)
    ∧ loadingTaskId a' = None
    ∧ coachTip a' = coachTip a
    ∧ isCoachLoading a' = isCoachLoading a
    ∧ ((tasks a' = tasks a ∧ localStorage a' = localStorage a)
       ∨ ∃ items,
           tasks a' = attachSubtasks taskId (newSubtasks stamp items) captured
           ∧ ((o = []
               ∧ Store.items (localStorage a')
                 = <[js "zenfocus-tasks" := stringify (tasks a')]>
                     (Store.items (localStorage a)))
              ∨ (∃ e, o = [ConsoleError None e]
                      ∧ localStorage a' = localStorage a))).
Proof. apply breakdown_cases. Qed.

(** X25: whatever the service does, the coaching handler completes
    normally, leaves the tasks, the loading mark and the storage alone and
    ends with the coach loading flag off; the tip is either unchanged or,
    with no output at all, a truthy value; and when the response is a
    success whose text part is truthy, the tip becomes exactly that text
    part.  A number that [JSON.parse] rounds to 0 is not truthy. *)
Theorem coach_outcomes captured a :
  (∃ a' o,
     getZenCoachTip fetch captured a = (Returns tt, a', o)
     ∧ tasks a' = tasks a
     ∧ loadingTaskId a' = loadingTaskId a
     ∧ localStorage a' = localStorage a
     ∧ isCoachLoading a' = false
     ∧ (coachTip a' = coachTip a
        ∨ o = [] ∧ ∃ v, coachTip a' = Some v ∧ truthy v = true))
  ∧ (∀ body data v,
       fetch (coach_prompt (activeTaskText captured)) = Responded true body →
       Json.parse body = Some data → text_part data = Some v →
       truthy v = true →
       getZenCoachTip fetch captured a
       = (Returns tt,
          mkApp (tasks a) (loadingTaskId a) (Some v) false (localStorage a),
          []))
  ∧ truthy (JNumber 1 (-400)) = false.
Proof.
  split; [| split; [| reflexivity]].
  - destruct (call_outcome fetch (coach_prompt (activeTaskText captured)))
      as (r & out & Hc & _ & Hout).
    destruct r as [v|].
    2: { eexists _, _. split; [by eapply coach_no_result |].
         repeat split; try done. by left. }
    destruct Hout as [-> _]. destruct (truthy v) eqn:Hv.
    + eexists _, _. split; [by eapply coach_tip |].
      repeat split; try done. right. split; [done |]. by exists v.
    + eexists _, _. split; [by eapply coach_no_result |].
      repeat split; try done. by left.
  - intros body data v Hf Hp Ht Hv.
    assert (data ≠ JNull) as Hd by (intros ->; discriminate Ht).
    pose proof (callGemini_ok fetch _ _ _ Hf Hp Hd) as Hc.
    rewrite Ht in Hc. simpl in Hc. rewrite Hv in Hc.
    by eapply coach_tip.
Qed.

End ClientMore.

(* ===================================================================== *)
(** * More on the durable store *)
(* ===================================================================== *)

Module StoreMore.
Import Store StoreFacts.

Section RoundTrip.
Variable stringify : json → jsstring.

(** X26: on a readable storage with room for the write, when the
    serialised value deserializes to the value, [setValue] completes without
    output, the state holds the value, a later [load] of the same key gives
    the value back whatever the default, and a [load] of any other key gives
    what it gave before the write. *)
Theorem save_then_load (h : Hook) (key : jsstring) (value : json)
    (Hread : blocked (storage h) = false)
    (Hroom : (used (<[key := stringify value]> (items (storage h)))
              ≤ quota (storage h))%N)
    (Hparse : Json.parse (stringify value) = Some value) :
  ∃ h', setValue stringify key value h = (Returns tt, h', [])
    ∧ storedValue h' = value
    ∧ (∀ d, load key d (storage h') = (Returns value, storage h', []))
    ∧ (∀ key' d, key' ≠ key →
         ∃ v out, load key' d (storage h) = (Returns v, storage h, out)
                  ∧ load key' d (storage h') = (Returns v, storage h', out)).
Proof.
  set (st' := mkStorage (<[key := stringify value]> (items (storage h)))
                (quota (storage h)) false).
  assert (setItem key (stringify value) (storage h) = (Returns tt, st', []))
    as Hw.
  { unfold setItem. rewrite Hread. cbv zeta.
    apply N.leb_le in Hroom. rewrite Hroom. reflexivity. }
  exists (mkHook value st'). split; [| split; [done | split]].
  - unfold setValue, try_catch, bind, on_storage, setStoredValue, modify.
    simpl. by rewrite Hw.
  - intros d. simpl. apply (load_parsed _ _ _ (stringify value)).
    + done.
    + simpl. by rewrite lookup_insert_eq.
    + intros Hnil. rewrite Hnil in Hparse. discriminate Hparse.
    + done.
  - intros key' d Hne. simpl.
    assert (items st' !! key' = items (storage h) !! key') as Hk
      by (simpl; by rewrite lookup_insert_ne).
    unfold load, try_catch, bind, getItem. simpl. rewrite Hread.
    rewrite lookup_insert_ne by done.
    destruct (items (storage h) !! key') as [raw|]; simpl.
    + destruct raw as [|c raw]; simpl; [by eexists _, _ |].
      unfold JSON_parse. destruct (Json.parse (c :: raw)); by eexists _, _.
    + by eexists _, _.
Qed.

End RoundTrip.

Lemma save_then_load_witness :
  let stringify := λ v, match v with JBool false => js "false" | _ => js "true" end in
  let st := mkStorage {[ js "zenfocus-tasks" := js "[]" ]} 5000000 false in
  ∃ h', setValue stringify (js "zenfocus-sound") (JBool false)
          (mkHook (JBool true) st) = (Returns tt, h', [])
        ∧ load (js "zenfocus-sound") (JBool true) (storage h')
          = (Returns (JBool false), storage h', []).
Proof.
  intros stringify st.
  destruct (save_then_load stringify (mkHook (JBool true) st)
              (js "zenfocus-sound") (JBool false)) as (h' & Hs & _ & Hl & _).
  - reflexivity.
  - by vm_compute.
  - by vm_compute.
  - exists h'. split; [exact Hs | apply Hl].
Defined.

End StoreMore.
